(** * Server: the listening endpoint of the socket layer

    A shallow embedding of [Server.ts] (class [Server]) and of the factory
    [createServer] of [index.ts].  The class is event driven: it reacts to
    id-tagged events of the shared native emitter, keeps a set of accepted
    sockets and re-emits public events through the EventEmitter3 registry it
    inherits.  Methods are modelled as functions from a server state to the
    next state together with the list of effects they perform, in program
    order: commands sent to the native module, public events emitted and
    application callbacks invoked.

    Scope.  The native module is the one of the Android platform (elsewhere
    [Sockets] is the empty object).  The application reaches the server
    through the methods of the class and through [on] and [once]; it does
    not remove listeners, and its callbacks are opaque. *)

From Stdlib Require Import ZArith String List Bool Lia.
From stdpp Require Import base option list gmap strings.
Import ListNotations.

Local Open Scope string_scope.
Local Open Scope list_scope.

(** ** Values exchanged with the native side and with the application *)

(** Application-supplied functions are opaque: they are identified by a
    name and their invocation is recorded as an effect.  They are assumed
    not to call back into the server while they run. *)
Definition Callback := nat.

(** The [connection] object of a native [listening] event. *)
Record NativeConnection := {
  localAddress : string;
  localPort : Z;
  localFamily : string
}.

(** The [info] object of a native [connection] event ([_buildSocket] reads
    [info.id] and [info.connection] in its disabled lines). *)
Record NativeConnectionInfo := {
  info_id : Z;
  info_connection : NativeConnection
}.

Module AddressInfo.
Record t := mk { address : string; port : Z; family : string }.
End AddressInfo.

Module ListenOptions.
Record t := mk { port : Z; host : option string; reuseAddress : option bool }.

Definition with_host (h : option string) (o : t) : t :=
  {| port := port o; host := h; reuseAddress := reuseAddress o |}.
End ListenOptions.

(** Modelled from the spec: the connection states of a Socket (the class
    [./Socket] is imported by the server but is not among the sources). *)
Inductive ConnectionState := Unconnected | Connecting | Connected | Closing | Closed.

(** Modelled from the spec: the Socket class, which is not among the
    sources.  The spec gives a Socket a connection state and address
    metadata that is undefined until the socket is connected.
    [socket_ref] is the identity of the JavaScript object, which is what
    [Set<Socket>] compares. *)
Record Socket := {
  socket_ref : nat;
  socket_state : ConnectionState;
  socket_connection : option NativeConnection
}.

(** Modelled from the spec: the constructor of Socket, called without
    argument as [new Socket()]; the new socket is unconnected and has no
    address metadata. *)
Definition new_Socket (ref : nat) : Socket :=
  {| socket_ref := ref; socket_state := Unconnected; socket_connection := None |}.

(** Arguments passed to listeners and callbacks. *)
Inductive Value :=
| VNull
| VNumber (n : Z)
| VString (s : string)
| VError (message : string)      (* [new Error(message)] *)
| VSocket (s : Socket).

Definition ERR_SERVER_ALREADY_LISTEN : string := "ERR_SERVER_ALREADY_LISTEN".
Definition ERR_SERVER_NOT_RUNNING : string := "ERR_SERVER_NOT_RUNNING".

(** Events of the shared native emitter the server subscribes to. *)
Inductive NativeEvent :=
| EvListening (id : Z) (connection : NativeConnection)
| EvError (id : Z) (error : string)
| EvConnection (id : Z) (info : NativeConnectionInfo).

Definition event_id (evt : NativeEvent) : Z :=
  match evt with
  | EvListening id _ | EvError id _ | EvConnection id _ => id
  end.

(** What a method does besides changing the server. *)
Inductive Effect :=
| NativeListen (id : Z) (options : ListenOptions.t)   (* [Sockets.listen(id, gotOptions)] *)
| NativeClose (id : Z)                                (* [Sockets.close(id)] *)
| Emit (event : string) (args : list Value)           (* [this.emit(event, ...args)] *)
| Call (callback : Callback) (args : list Value)      (* an application function runs *)
| ConsoleWarn (info : NativeConnectionInfo)
| Throw (message : string).                           (* an exception reaches the caller *)

(** ** The EventEmitter3 registry *)

(** The functions registered on the server, either by the class itself or
    by the application. *)
Inductive ListenerFn :=
| UserFn (callback : Callback)
| SetDisconnected                          (* [this._setDisconnected] *)
| ListenArrow (callback : option Callback). (* the arrow function of [listen] *)

Record Listener := { fn : ListenerFn; is_once : bool }.

(** The three subscriptions [_registerEvents] takes on the native emitter. *)
Inductive Subscription := SubListening | SubError | SubConnection.

Definition Subscription_eqb (a b : Subscription) : bool :=
  match a, b with
  | SubListening, SubListening | SubError, SubError
  | SubConnection, SubConnection => true
  | _, _ => false
  end.

(** ** The server *)

(** The fields of the class, the registry inherited from EventEmitter3
    ([_events], in registration order), and the part of the environment the
    class acts on: its live subscriptions on the native emitter, the
    sockets carrying the close listener of the connection handler, and the
    number of Socket objects built so far (the next object reference). *)
Record Server := {
  _id : Z;
  _connections : gset nat;
  _localAddress : option string;
  _localPort : option Z;
  _localFamily : option string;
  listening : bool;
  _errorListener : option Subscription;
  _connectionsListener : option Subscription;
  _events : list (string * Listener);
  subscriptions : list Subscription;
  closeListeners : gset nat;
  allocated : nat
}.

Definition set_connections (c : gset nat) (s : Server) : Server :=
  {| _id := _id s; _connections := c; _localAddress := _localAddress s;
     _localPort := _localPort s; _localFamily := _localFamily s;
     listening := listening s; _errorListener := _errorListener s;
     _connectionsListener := _connectionsListener s; _events := _events s;
     subscriptions := subscriptions s; closeListeners := closeListeners s;
     allocated := allocated s |}.

Definition set_local (a : option string) (p : option Z) (f : option string)
    (s : Server) : Server :=
  {| _id := _id s; _connections := _connections s; _localAddress := a;
     _localPort := p; _localFamily := f;
     listening := listening s; _errorListener := _errorListener s;
     _connectionsListener := _connectionsListener s; _events := _events s;
     subscriptions := subscriptions s; closeListeners := closeListeners s;
     allocated := allocated s |}.

Definition set_listening (b : bool) (s : Server) : Server :=
  {| _id := _id s; _connections := _connections s; _localAddress := _localAddress s;
     _localPort := _localPort s; _localFamily := _localFamily s;
     listening := b; _errorListener := _errorListener s;
     _connectionsListener := _connectionsListener s; _events := _events s;
     subscriptions := subscriptions s; closeListeners := closeListeners s;
     allocated := allocated s |}.

Definition set_errorListener (l : option Subscription) (s : Server) : Server :=
  {| _id := _id s; _connections := _connections s; _localAddress := _localAddress s;
     _localPort := _localPort s; _localFamily := _localFamily s;
     listening := listening s; _errorListener := l;
     _connectionsListener := _connectionsListener s; _events := _events s;
     subscriptions := subscriptions s; closeListeners := closeListeners s;
     allocated := allocated s |}.

Definition set_connectionsListener (l : option Subscription) (s : Server) : Server :=
  {| _id := _id s; _connections := _connections s; _localAddress := _localAddress s;
     _localPort := _localPort s; _localFamily := _localFamily s;
     listening := listening s; _errorListener := _errorListener s;
     _connectionsListener := l; _events := _events s;
     subscriptions := subscriptions s; closeListeners := closeListeners s;
     allocated := allocated s |}.

Definition set_events (e : list (string * Listener)) (s : Server) : Server :=
  {| _id := _id s; _connections := _connections s; _localAddress := _localAddress s;
     _localPort := _localPort s; _localFamily := _localFamily s;
     listening := listening s; _errorListener := _errorListener s;
     _connectionsListener := _connectionsListener s; _events := e;
     subscriptions := subscriptions s; closeListeners := closeListeners s;
     allocated := allocated s |}.

Definition set_subscriptions (l : list Subscription) (s : Server) : Server :=
  {| _id := _id s; _connections := _connections s; _localAddress := _localAddress s;
     _localPort := _localPort s; _localFamily := _localFamily s;
     listening := listening s; _errorListener := _errorListener s;
     _connectionsListener := _connectionsListener s; _events := _events s;
     subscriptions := l; closeListeners := closeListeners s;
     allocated := allocated s |}.

Definition set_closeListeners (c : gset nat) (s : Server) : Server :=
  {| _id := _id s; _connections := _connections s; _localAddress := _localAddress s;
     _localPort := _localPort s; _localFamily := _localFamily s;
     listening := listening s; _errorListener := _errorListener s;
     _connectionsListener := _connectionsListener s; _events := _events s;
     subscriptions := subscriptions s; closeListeners := c;
     allocated := allocated s |}.

Definition set_allocated (n : nat) (s : Server) : Server :=
  {| _id := _id s; _connections := _connections s; _localAddress := _localAddress s;
     _localPort := _localPort s; _localFamily := _localFamily s;
     listening := listening s; _errorListener := _errorListener s;
     _connectionsListener := _connectionsListener s; _events := _events s;
     subscriptions := subscriptions s; closeListeners := closeListeners s;
     allocated := n |}.

(** *** EventEmitter3: [on], [once], [emit] *)

Definition on (event : string) (f : ListenerFn) (s : Server) : Server :=
  set_events (_events s ++ [(event, {| fn := f; is_once := false |})]) s.

Definition once (event : string) (f : ListenerFn) (s : Server) : Server :=
  set_events (_events s ++ [(event, {| fn := f; is_once := true |})]) s.

Definition listeners (event : string) (s : Server) : list Listener :=
  map snd (List.filter (fun p => String.eqb (fst p) event) (_events s)).

(** Listeners registered with [once] leave the registry when the event
    they wait for is emitted. *)
Definition drop_once (event : string) (s : Server) : Server :=
  set_events
    (List.filter (fun p => negb (String.eqb (fst p) event && is_once (snd p)))
       (_events s)) s.

(** [_setDisconnected] *)
Definition _setDisconnected (s : Server) : Server :=
  set_local None None None s.

Definition run_listener (f : ListenerFn) (args : list Value) (s : Server)
    : Server * list Effect :=
  match f with
  | UserFn cb => (s, [Call cb args])
  | SetDisconnected => (_setDisconnected s, [])
  | ListenArrow callback =>
      (set_listening true s,
       match callback with Some cb => [Call cb []] | None => [] end)
  end.

Fixpoint run_listeners (ls : list Listener) (args : list Value) (s : Server)
    : Server * list Effect :=
  match ls with
  | [] => (s, [])
  | l :: ls' =>
      let '(s1, e1) := run_listener (fn l) args s in
      let '(s2, e2) := run_listeners ls' args s1 in
      (s2, e1 ++ e2)
  end.

(** [emit]: the listeners registered for the event at the time of the call
    run in registration order; the [once] ones are unregistered. *)
Definition emit (event : string) (args : list Value) (s : Server)
    : Server * list Effect :=
  let '(s', eff) := run_listeners (listeners event s) args (drop_once event s) in
  (s', Emit event args :: eff).

(** *** Construction *)

(** [_registerEvents]: three subscriptions on the native emitter.  The
    subscription of the [listening] handler is stored in [_errorListener]
    and then overwritten by the one of the [error] handler. *)
Definition _registerEvents (s : Server) : Server :=
  let s := set_errorListener (Some SubListening)
             (set_subscriptions (subscriptions s ++ [SubListening]) s) in
  let s := set_errorListener (Some SubError)
             (set_subscriptions (subscriptions s ++ [SubError]) s) in
  set_connectionsListener (Some SubConnection)
    (set_subscriptions (subscriptions s ++ [SubConnection]) s).

(** The constructor.  [id] is the value [getNextId()] returns ([./Globals]
    is not among the sources). *)
Definition new_Server (id : Z) (connectionCallback : option Callback) : Server :=
  let s := {| _id := id; _connections := ∅; _localAddress := None;
              _localPort := None; _localFamily := None; listening := false;
              _errorListener := None; _connectionsListener := None;
              _events := []; subscriptions := []; closeListeners := ∅;
              allocated := 0 |} in
  let s := _registerEvents s in
  let s := match connectionCallback with
           | Some cb => on "connection" (UserFn cb) s
           | None => s
           end in
  on "close" SetDisconnected s.

(** [createServer] of [index.ts]. *)
Definition createServer (id : Z) (connectionListener : Callback) : Server :=
  new_Server id (Some connectionListener).

(** *** Methods *)

(** JavaScript truthiness of a [string | undefined]. *)
Definition truthy (v : option string) : bool :=
  match v with
  | Some a => negb (String.eqb a "")
  | None => false
  end.

(** The objects the application passes as [options] live in a store, so
    that the copy [listen] makes and the caller's object are distinct
    cells; a reference is an index into the store. *)
Abbreviation Store := (list ListenOptions.t) (only parsing).

Inductive Outcome :=
| Thrown (message : string)
| Returned (store : Store) (s : Server) (effects : list Effect).

(** [listen(options, callback)].  [None] only for a reference that does
    not point into the store. *)
Definition listen (store : Store) (s : Server) (options : nat)
    (callback : option Callback) : option Outcome :=
  match _localAddress s with
  | Some _ => Some (Thrown ERR_SERVER_ALREADY_LISTEN)
  | None =>
      o ← store !! options;
      (* const gotOptions = { ...options } *)
      let gotOptions := length store in
      let store1 := store ++ [o] in
      (* gotOptions.host = gotOptions.host || "0.0.0.0" *)
      g ← store1 !! gotOptions;
      let h := if truthy (ListenOptions.host g) then ListenOptions.host g
               else Some "0.0.0.0" in
      let store2 := <[gotOptions := ListenOptions.with_host h g]> store1 in
      let s1 := once "listening" (ListenArrow callback) s in
      sent ← store2 !! gotOptions;
      Some (Returned store2 s1 [NativeListen (_id s) sent])
  end.

(** [getConnections(callback)] *)
Definition getConnections (callback : Callback) (s : Server)
    : Server * list Effect :=
  (s, [Call callback [VNull; VNumber (Z.of_nat (size (_connections s)))]]).

(** [close(callback)] *)
Definition close (callback : option Callback) (s : Server)
    : Server * list Effect :=
  if negb (truthy (_localAddress s)) then
    (s, match callback with
        | Some cb => [Call cb [VError ERR_SERVER_NOT_RUNNING]]
        | None => []
        end)
  else
    let s1 := match callback with
              | Some cb => once "close" (UserFn cb) s
              | None => s
              end in
    (set_listening false s1, [NativeClose (_id s1)]).

(** [address()] *)
Definition address (s : Server) : option AddressInfo.t :=
  if negb (truthy (_localAddress s)) then None
  else
    match _localAddress s, _localFamily s, _localPort s with
    | Some a, Some f, Some p =>
        Some {| AddressInfo.address := a; AddressInfo.port := p;
                AddressInfo.family := f |}
    | _, _, _ => None
    end.

(** [subscription.remove()] on the native emitter. *)
Definition remove_subscription (l : option Subscription) (s : Server) : Server :=
  match l with
  | Some sub =>
      set_subscriptions
        (List.filter (fun x => negb (Subscription_eqb x sub)) (subscriptions s)) s
  | None => s
  end.

(** [destroy()].  Nothing in the [try] block throws here, listeners being
    the class's own or opaque callbacks. *)
Definition destroy (s : Server) : Server * list Effect :=
  let '(s1, eff) := emit "close" [] s in
  let s2 := remove_subscription (_errorListener s1) s1 in
  let s3 := remove_subscription (_connectionsListener s2) s2 in
  (s3, eff).

(** [_buildSocket(info)]: the new object takes the next reference; [info]
    is only printed. *)
Definition _buildSocket (info : NativeConnectionInfo) (s : Server)
    : Socket * Server * list Effect :=
  let newSocket := new_Socket (allocated s) in
  (newSocket, set_allocated (S (allocated s)) s, [ConsoleWarn info]).

(** *** Handlers of native events (the arrow functions of [_registerEvents]) *)

Definition onListening (id : Z) (connection : NativeConnection) (s : Server)
    : Server * list Effect :=
  if negb (id =? _id s)%Z then (s, [])
  else
    let s1 := set_local (Some (localAddress connection))
                (Some (localPort connection))
                (Some (localFamily connection)) s in
    emit "listening" [] s1.

Definition onError (id : Z) (error : string) (s : Server)
    : Server * list Effect :=
  if negb (id =? _id s)%Z then (s, [])
  else
    let '(s1, e1) := close None s in
    let '(s2, e2) := emit "error" [VString error] s1 in
    (s2, e1 ++ e2).

(** The listener the connection handler registers on the socket it built. *)
Definition onSocketClose (newSocket : nat) (s : Server) : Server * list Effect :=
  let s1 := set_connections (_connections s ∖ {[ newSocket ]}) s in
  if negb (listening s1) && (size (_connections s1) =? 0)%nat
  then emit "close" [] s1
  else (s1, []).

Definition onConnection (id : Z) (info : NativeConnectionInfo) (s : Server)
    : Server * list Effect :=
  if negb (id =? _id s)%Z then (s, [])
  else
    let '(newSocket, s1, e1) := _buildSocket info s in
    (* newSocket.on("close", ...) *)
    let s2 := set_closeListeners
                ({[ socket_ref newSocket ]} ∪ closeListeners s1) s1 in
    let s3 := set_connections
                ({[ socket_ref newSocket ]} ∪ _connections s2) s2 in
    let '(s4, e2) := emit "connection" [VSocket newSocket] s3 in
    (s4, e1 ++ e2).

(** ** The environment driving the server *)

Definition subscribed (sub : Subscription) (s : Server) : bool :=
  existsb (Subscription_eqb sub) (subscriptions s).

(** The handler [_registerEvents] installs for each kind of event. *)
Definition handle (evt : NativeEvent) (s : Server) : Server * list Effect :=
  match evt with
  | EvListening id c => onListening id c s
  | EvError id e => onError id e s
  | EvConnection id i => onConnection id i s
  end.

Definition subscription_of (evt : NativeEvent) : Subscription :=
  match evt with
  | EvListening _ _ => SubListening
  | EvError _ _ => SubError
  | EvConnection _ _ => SubConnection
  end.

(** The native emitter delivers an event to the handler if it is still
    subscribed. *)
Definition deliver (evt : NativeEvent) (s : Server) : Server * list Effect :=
  if subscribed (subscription_of evt) s then handle evt s else (s, []).

(** A socket emits [close]: the server's listener runs if it is registered
    on that socket. *)
Definition socketCloses (ref : nat) (s : Server) : Server * list Effect :=
  if bool_decide (ref ∈ closeListeners s) then onSocketClose ref s else (s, []).

(** What can happen to a server: the application calls a method (for
    [listen], with a fresh options object), registers a callback, the
    native emitter delivers an event, or an accepted socket closes. *)
Inductive Action :=
| DoListen (options : ListenOptions.t) (callback : option Callback)
| DoGetConnections (callback : Callback)
| DoClose (callback : option Callback)
| DoDestroy
| DoOn (event : string) (callback : Callback)
| DoOnce (event : string) (callback : Callback)
| Deliver (evt : NativeEvent)
| SocketCloses (ref : nat).

Definition perform (a : Action) (s : Server) : Server * list Effect :=
  match a with
  | DoListen options callback =>
      match listen [options] s 0 callback with
      | Some (Returned _ s' eff) => (s', eff)
      | Some (Thrown message) => (s, [Throw message])
      | None => (s, [])
      end
  | DoGetConnections callback => getConnections callback s
  | DoClose callback => close callback s
  | DoDestroy => destroy s
  | DoOn event cb => (on event (UserFn cb) s, [])
  | DoOnce event cb => (once event (UserFn cb) s, [])
  | Deliver evt => deliver evt s
  | SocketCloses ref => socketCloses ref s
  end.

Fixpoint run (acts : list Action) (s : Server) : Server * list Effect :=
  match acts with
  | [] => (s, [])
  | a :: acts' =>
      let '(s1, e1) := perform a s in
      let '(s2, e2) := run acts' s1 in
      (s2, e1 ++ e2)
  end.

Definition reachable (s : Server) : Prop :=
  ∃ id connectionCallback acts,
    fst (run acts (new_Server id connectionCallback)) = s.

(** ** Vocabulary of the statements *)

Definition emits (event : string) (eff : list Effect) : Prop :=
  ∃ args, In (Emit event args) eff.

Definition is_call (e : Effect) : bool :=
  match e with Call _ _ => true | _ => false end.

Definition is_arrow (l : Listener) : bool :=
  match fn l with ListenArrow _ => true | _ => false end.

Definition is_disconnect (l : Listener) : bool :=
  match fn l with SetDisconnected => true | _ => false end.

(** The class registers its own functions under one event each. *)
Definition registered_well (p : string * Listener) : Prop :=
  match fn (snd p) with
  | ListenArrow _ => fst p = "listening"
  | SetDisconnected => fst p = "close"
  | UserFn _ => True
  end.

Definition registry_ok (s : Server) : Prop :=
  Forall registered_well (_events s).

(** A call of [listen] is still waiting for its [listening] event. *)
Definition listen_pending (s : Server) : Prop :=
  ∃ callback,
    In ("listening", {| fn := ListenArrow callback; is_once := true |}) (_events s).

(** Listeners touch only [listening] and the bound address. *)
Definition same_structure (s s' : Server) : Prop :=
  _id s' = _id s ∧ _connections s' = _connections s ∧
  _events s' = _events s ∧ subscriptions s' = subscriptions s ∧
  closeListeners s' = closeListeners s ∧ allocated s' = allocated s ∧
  _errorListener s' = _errorListener s ∧
  _connectionsListener s' = _connectionsListener s.

(** The options [listen] sends to the native side: the caller's, with the
    wildcard address for a missing or empty host. *)
Definition host_or_default (o : ListenOptions.t) : ListenOptions.t :=
  ListenOptions.with_host
    (if truthy (ListenOptions.host o) then ListenOptions.host o
     else Some "0.0.0.0") o.

(** Plumbing that every reachable server satisfies. *)
Record invariant (s : Server) : Prop := {
  inv_registry : registry_ok s;
  inv_watched : _connections s ⊆ closeListeners s;
  inv_fresh : ∀ r, r ∈ closeListeners s → r < allocated s;
  inv_subscribed : subscribed SubListening s = true;
  inv_errorListener : _errorListener s = Some SubError;
  inv_connectionsListener : _connectionsListener s = Some SubConnection
}.

Definition bound_when_listening (s : Server) : Prop :=
  listening s = true →
  is_Some (_localAddress s) ∧ is_Some (_localPort s) ∧ is_Some (_localFamily s).

Definition is_destroy (a : Action) : bool :=
  match a with DoDestroy => true | _ => false end.

(** [x] occurs before [y] in a list of effects. *)
Definition before (x y : Effect) (eff : list Effect) : Prop :=
  ∃ l1 l2 l3, eff = l1 ++ x :: l2 ++ y :: l3.

(** *** The scenario of the spec: port 12345 on the wildcard address *)

Definition port_12345 : ListenOptions.t :=
  {| ListenOptions.port := 12345; ListenOptions.host := None;
     ListenOptions.reuseAddress := None |}.

Definition wildcard_12345 : NativeConnection :=
  {| localAddress := "0.0.0.0"; localPort := 12345; localFamily := "IPv4" |}.

Definition unnamed_12345 : NativeConnection :=
  {| localAddress := ""; localPort := 12345; localFamily := "IPv4" |}.

Definition peer : NativeConnectionInfo :=
  {| info_id := 8; info_connection := wildcard_12345 |}.

(** Server 7 after [listen({port: 12345})]. *)
Definition server_pending : Server :=
  fst (run [DoListen port_12345 None] (new_Server 7 None)).

(** Server 7 after [listen({port: 12345})] and its [listening] event. *)
Definition server_listening : Server :=
  fst (run [DoListen port_12345 None; Deliver (EvListening 7 wildcard_12345)]
         (new_Server 7 None)).

(** The same with one accepted socket. *)
Definition server_accepting : Server :=
  fst (run [Deliver (EvConnection 7 peer)] server_listening).

(** *** Vocabulary of the further properties *)

(** Commands sent to the native module, and the endpoint they name. *)
Definition is_native (e : Effect) : bool :=
  match e with NativeListen _ _ | NativeClose _ => true | _ => false end.

Definition native_id (e : Effect) : option Z :=
  match e with
  | NativeListen id _ | NativeClose id => Some id
  | _ => None
  end.

(** The methods the application calls that answer at once. *)
Definition is_synchronous (a : Action) : bool :=
  match a with
  | DoListen _ _ | DoGetConnections _ | DoClose _ | DoOn _ _ | DoOnce _ _ => true
  | DoDestroy | Deliver _ | SocketCloses _ => false
  end.

(** The three fields of the bound address are set together. *)
Definition unbound (s : Server) : Prop :=
  _localAddress s = None ∧ _localPort s = None ∧ _localFamily s = None.

Definition fully_bound (s : Server) : Prop :=
  is_Some (_localAddress s) ∧ is_Some (_localPort s) ∧ is_Some (_localFamily s).

(** What the constructor registers for good: [_setDisconnected] on [close]. *)
Definition disconnect_registered (s : Server) : Prop :=
  In ("close", {| fn := SetDisconnected; is_once := false |}) (_events s).

(** The arrow functions of [listen] are all registered with [once]. *)
Definition arrows_once (s : Server) : Prop :=
  Forall (fun p : string * Listener =>
            is_arrow (snd p) = true → is_once (snd p) = true) (_events s).

(** A listener registered with [on] by the constructor or the application. *)
Definition permanent (event : string) (callback : Callback) (s : Server) : Prop :=
  In (event, {| fn := UserFn callback; is_once := false |}) (_events s).

(** Further plumbing of every reachable server. *)
Record steady (s : Server) : Prop := {
  steady_disconnect : disconnect_registered s;
  steady_arrows : arrows_once s;
  steady_fields : unbound s ∨ fully_bound s
}.

(** ** Effects and registry: basic facts *)

Lemma same_structure_refl s : same_structure s s.
Proof. repeat split. Qed.

Lemma same_structure_trans s1 s2 s3 :
  same_structure s1 s2 → same_structure s2 s3 → same_structure s1 s3.
Proof.
  unfold same_structure. intros H12 H23.
  destruct H12 as (?&?&?&?&?&?&?&?), H23 as (?&?&?&?&?&?&?&?).
  repeat split; congruence.
Qed.

Lemma run_listener_structure f args s :
  same_structure s (fst (run_listener f args s)).
Proof. destruct f; repeat split. Qed.

Lemma run_listeners_structure ls args : ∀ s,
  same_structure s (fst (run_listeners ls args s)).
Proof.
  induction ls as [|l ls IH]; intros s; simpl.
  - apply same_structure_refl.
  - pose proof (run_listener_structure (fn l) args s) as H1.
    destruct (run_listener (fn l) args s) as [s1 e1]; simpl in H1.
    specialize (IH s1).
    destruct (run_listeners ls args s1) as [s2 e2]; simpl in *.
    eapply same_structure_trans; eauto.
Qed.

Lemma run_listeners_calls ls args : ∀ s,
  forallb is_call (snd (run_listeners ls args s)) = true.
Proof.
  induction ls as [|l ls IH]; intros s; simpl; [done|].
  destruct (run_listener (fn l) args s) as [s1 e1] eqn:E1.
  specialize (IH s1).
  destruct (run_listeners ls args s1) as [s2 e2]; simpl in *.
  rewrite forallb_app, IH, andb_true_r.
  destruct (fn l) as [cb| |[cb|]]; simpl in E1; inversion E1; reflexivity.
Qed.

Lemma run_listeners_listening ls args : ∀ s,
  listening (fst (run_listeners ls args s)) = existsb is_arrow ls || listening s.
Proof.
  induction ls as [|l ls IH]; intros s; simpl; [done|].
  destruct (run_listener (fn l) args s) as [s1 e1] eqn:E1.
  specialize (IH s1).
  destruct (run_listeners ls args s1) as [s2 e2]; simpl in *.
  rewrite IH. unfold is_arrow at 2.
  destruct (fn l); simpl in E1; inversion E1; subst; simpl;
    auto using orb_true_r.
Qed.

Lemma run_listeners_local ls args : ∀ s,
  let s' := fst (run_listeners ls args s) in
  if existsb is_disconnect ls
  then _localAddress s' = None ∧ _localPort s' = None ∧ _localFamily s' = None
  else _localAddress s' = _localAddress s ∧ _localPort s' = _localPort s ∧
       _localFamily s' = _localFamily s.
Proof.
  induction ls as [|l ls IH]; intros s; simpl; [done|].
  destruct (run_listener (fn l) args s) as [s1 e1] eqn:E1.
  specialize (IH s1).
  destruct (run_listeners ls args s1) as [s2 e2]; simpl in *.
  unfold is_disconnect at 1.
  destruct (fn l); simpl in E1; inversion E1; subst; simpl; try exact IH.
  destruct (existsb is_disconnect ls); simpl in IH; exact IH.
Qed.

Lemma listeners_no_arrow event s :
  registry_ok s → event ≠ "listening" →
  existsb is_arrow (listeners event s) = false.
Proof.
  unfold registry_ok, listeners. intros Hok Hne.
  induction Hok as [|p evs Hp _ IH]; simpl; [done|].
  destruct (String.eqb (fst p) event) eqn:E; simpl; [|exact IH].
  apply String.eqb_eq in E. rewrite IH, orb_false_r.
  unfold is_arrow. unfold registered_well in Hp.
  destruct (fn (snd p)); try reflexivity. congruence.
Qed.

Lemma listeners_no_disconnect event s :
  registry_ok s → event ≠ "close" →
  existsb is_disconnect (listeners event s) = false.
Proof.
  unfold registry_ok, listeners. intros Hok Hne.
  induction Hok as [|p evs Hp _ IH]; simpl; [done|].
  destruct (String.eqb (fst p) event) eqn:E; simpl; [|exact IH].
  apply String.eqb_eq in E. rewrite IH, orb_false_r.
  unfold is_disconnect. unfold registered_well in Hp.
  destruct (fn (snd p)); try reflexivity. congruence.
Qed.

Lemma listeners_pending_arrow s :
  listen_pending s → existsb is_arrow (listeners "listening" s) = true.
Proof.
  intros [cb Hin]. apply existsb_exists.
  exists {| fn := ListenArrow cb; is_once := true |}. split; [|reflexivity].
  unfold listeners. apply in_map_iff.
  exists ("listening", {| fn := ListenArrow cb; is_once := true |}).
  split; [reflexivity|]. apply filter_In. split; [exact Hin|reflexivity].
Qed.

(** What one [emit] does: the event is recorded first, then come the calls
    of application listeners; besides the registry, only [listening] and
    the bound address can change, through the class's own listeners. *)
Lemma emit_spec event args s :
  let s' := fst (emit event args s) in
  let eff := snd (emit event args s) in
  same_structure (drop_once event s) s' ∧
  listening s' = existsb is_arrow (listeners event s) || listening s ∧
  (if existsb is_disconnect (listeners event s)
   then _localAddress s' = None ∧ _localPort s' = None ∧ _localFamily s' = None
   else _localAddress s' = _localAddress s ∧ _localPort s' = _localPort s ∧
        _localFamily s' = _localFamily s) ∧
  ∃ calls, eff = Emit event args :: calls ∧ forallb is_call calls = true.
Proof.
  unfold emit.
  pose proof (run_listeners_structure (listeners event s) args (drop_once event s)) as Hs.
  pose proof (run_listeners_listening (listeners event s) args (drop_once event s)) as Hl.
  pose proof (run_listeners_local (listeners event s) args (drop_once event s)) as Ha.
  pose proof (run_listeners_calls (listeners event s) args (drop_once event s)) as Hc.
  destruct (run_listeners (listeners event s) args (drop_once event s)) as [s1 e1].
  simpl in *. split; [exact Hs|]. split; [exact Hl|]. split; [exact Ha|]. eauto.
Qed.

Lemma emit_emits event args s event' :
  emits event' (snd (emit event args s)) ↔ event' = event.
Proof.
  destruct (emit_spec event args s) as (_ & _ & _ & calls & -> & Hc).
  split.
  - intros [a [H|H]]; [congruence|].
    rewrite forallb_forall in Hc. apply Hc in H. discriminate.
  - intros ->. exists args. left. reflexivity.
Qed.

Lemma drop_once_registry event s : registry_ok s → registry_ok (drop_once event s).
Proof.
  unfold registry_ok, drop_once. simpl. intros H.
  rewrite List.Forall_forall in *. intros p Hp. apply filter_In in Hp. apply H, Hp.
Qed.

Lemma emit_registry event args s :
  registry_ok s → registry_ok (fst (emit event args s)).
Proof.
  intros H. destruct (emit_spec event args s) as ((_ & _ & He & _) & _).
  unfold registry_ok. rewrite He. apply drop_once_registry, H.
Qed.

Lemma append_registry p s :
  registered_well p → registry_ok s → registry_ok (set_events (_events s ++ [p]) s).
Proof.
  unfold registry_ok. simpl. intros Hp H. apply Forall_app. split; [exact H|].
  constructor; [exact Hp|constructor].
Qed.

(** ** The methods, one by one *)

Lemma listen_bound store s options callback :
  _localAddress s ≠ None →
  listen store s options callback = Some (Thrown ERR_SERVER_ALREADY_LISTEN).
Proof. unfold listen. destruct (_localAddress s); [reflexivity|congruence]. Qed.

Lemma listen_unbound store s options callback o :
  _localAddress s = None → store !! options = Some o →
  listen store s options callback =
    Some (Returned (store ++ [host_or_default o])
            (once "listening" (ListenArrow callback) s)
            [NativeListen (_id s) (host_or_default o)]).
Proof.
  intros Hs Ho. unfold listen. rewrite Hs, Ho. simpl.
  assert (H1 : (store ++ [o]) !! length store = Some o).
  { rewrite lookup_app_r by lia. by rewrite Nat.sub_diag. }
  rewrite H1. simpl.
  assert (H2 : <[length store:=host_or_default o]> (store ++ [o])
               = store ++ [host_or_default o]).
  { rewrite insert_app_r_alt by lia. by rewrite Nat.sub_diag. }
  unfold host_or_default in *. rewrite H2.
  rewrite lookup_app_r by lia. rewrite Nat.sub_diag. reflexivity.
Qed.

Lemma listen_inv store s options callback store' s' eff :
  listen store s options callback = Some (Returned store' s' eff) →
  _localAddress s = None ∧
  ∃ o, store !! options = Some o ∧
       store' = store ++ [host_or_default o] ∧
       s' = once "listening" (ListenArrow callback) s ∧
       eff = [NativeListen (_id s) (host_or_default o)].
Proof.
  intros H. destruct (_localAddress s) as [a|] eqn:Ha.
  - rewrite listen_bound in H by congruence. discriminate.
  - split; [reflexivity|].
    destruct (store !! options) as [o|] eqn:Ho.
    + rewrite (listen_unbound _ _ _ _ o Ha Ho) in H. inversion H; subst. eauto.
    + unfold listen in H. rewrite Ha, Ho in H. discriminate.
Qed.

(** ** Invariant of the plumbing *)

Lemma invariant_structure s s' :
  same_structure s s' → invariant s → invariant s'.
Proof.
  intros (_ & Hc & He & Hs & Hw & Ha & Hel & Hcl) [].
  constructor; unfold registry_ok, subscribed in *;
    rewrite ?Hc, ?He, ?Hs, ?Hw, ?Ha, ?Hel, ?Hcl; assumption.
Qed.

Lemma new_Server_invariant id connectionCallback :
  invariant (new_Server id connectionCallback).
Proof.
  destruct connectionCallback; constructor; simpl; try reflexivity;
    try (intros r Hr; by apply not_elem_of_empty in Hr); repeat constructor.
Qed.

Lemma emit_invariant event args s :
  invariant s → invariant (fst (emit event args s)).
Proof.
  intros Hi. pose proof (emit_registry event args s (inv_registry _ Hi)) as Hr.
  destruct (emit_spec event args s) as ((_ & Hc & _ & Hs & Hw & Ha & Hel & Hcl) & _).
  simpl in *. destruct Hi.
  constructor; unfold subscribed in *;
    rewrite ?Hc, ?Hs, ?Hw, ?Ha, ?Hel, ?Hcl; assumption.
Qed.

Lemma on_invariant event cb s : invariant s → invariant (on event (UserFn cb) s).
Proof.
  intros []. constructor; try assumption. by apply append_registry.
Qed.

Lemma once_user_invariant event cb s :
  invariant s → invariant (once event (UserFn cb) s).
Proof.
  intros []. constructor; try assumption. by apply append_registry.
Qed.

Lemma once_arrow_invariant cb s :
  invariant s → invariant (once "listening" (ListenArrow cb) s).
Proof.
  intros []. constructor; try assumption. by apply append_registry.
Qed.

Lemma close_invariant callback s : invariant s → invariant (fst (close callback s)).
Proof.
  intros Hi. unfold close.
  destruct (negb (truthy (_localAddress s))); simpl; [exact Hi|].
  apply invariant_structure with
    (s := match callback with
          | Some cb => once "close" (UserFn cb) s
          | None => s
          end); [repeat split|].
  destruct callback; [by apply once_user_invariant|exact Hi].
Qed.

Lemma keeps_listening_subscription sub l :
  sub ≠ SubListening →
  existsb (Subscription_eqb SubListening)
    (List.filter (fun x => negb (Subscription_eqb x sub)) l)
  = existsb (Subscription_eqb SubListening) l.
Proof.
  intros Hne. induction l as [|x l IH]; simpl; [done|].
  destruct x, sub; simpl; try congruence.
Qed.

Lemma destroy_invariant s : invariant s → invariant (fst (destroy s)).
Proof.
  intros Hi. apply (emit_invariant "close" []) in Hi. unfold destroy.
  destruct (emit "close" [] s) as [s1 eff]. simpl in *. destruct Hi.
  rewrite inv_errorListener0. simpl. rewrite inv_connectionsListener0. simpl.
  constructor; simpl; try assumption.
  unfold subscribed in *. simpl.
  rewrite !keeps_listening_subscription; [assumption|discriminate..].
Qed.

Lemma onListening_invariant id c s :
  invariant s → invariant (fst (onListening id c s)).
Proof.
  intros Hi. unfold onListening. destruct (negb (id =? _id s)%Z); [exact Hi|].
  apply emit_invariant. eapply invariant_structure; [|exact Hi]. repeat split.
Qed.

Lemma onError_invariant id e s :
  invariant s → invariant (fst (onError id e s)).
Proof.
  intros Hi. unfold onError. destruct (negb (id =? _id s)%Z); [exact Hi|].
  pose proof (close_invariant None s Hi) as H1.
  destruct (close None s) as [s1 e1]. simpl in H1.
  pose proof (emit_invariant "error" [VString e] s1 H1) as H2.
  destruct (emit "error" [VString e] s1) as [s2 e2]. exact H2.
Qed.

Lemma onConnection_invariant id info s :
  invariant s → invariant (fst (onConnection id info s)).
Proof.
  intros Hi. unfold onConnection. destruct (negb (id =? _id s)%Z); [exact Hi|].
  simpl.
  match goal with |- context [emit ?ev ?a ?s0] =>
    assert (H3 : invariant s0); [|apply (emit_invariant ev a) in H3;
      destruct (emit ev a s0) as [s4 e4]; exact H3] end.
  destruct Hi. constructor; simpl; try assumption.
  - by apply union_mono_l.
  - intros r Hr. apply elem_of_union in Hr as [Hr|Hr].
    + apply elem_of_singleton in Hr. lia.
    + apply inv_fresh0 in Hr. lia.
Qed.

Lemma onSocketClose_invariant ref s :
  invariant s → invariant (fst (onSocketClose ref s)).
Proof.
  intros Hi. unfold onSocketClose.
  assert (H1 : invariant (set_connections (_connections s ∖ {[ref]}) s)).
  { destruct Hi. constructor; simpl; try assumption.
    etrans; [apply subseteq_difference_l; reflexivity|assumption]. }
  match goal with |- context [if ?b then _ else _] => destruct b end;
    [by apply emit_invariant|exact H1].
Qed.

Lemma perform_invariant a s : invariant s → invariant (fst (perform a s)).
Proof.
  intros Hi. destruct a as [o cb|cb|cb| |ev cb|ev cb|evt|ref]; simpl.
  - destruct (listen [o] s 0 cb) as [[m|st s' eff]|] eqn:E; simpl; try exact Hi.
    apply listen_inv in E as (_ & o' & _ & _ & -> & _).
    by apply once_arrow_invariant.
  - exact Hi.
  - by apply close_invariant.
  - by apply destroy_invariant.
  - by apply on_invariant.
  - by apply once_user_invariant.
  - unfold deliver. destruct (subscribed (subscription_of evt) s); [|exact Hi].
    destruct evt as [id c|id e|id i]; simpl.
    + by apply onListening_invariant.
    + by apply onError_invariant.
    + by apply onConnection_invariant.
  - unfold socketCloses. case_bool_decide; [by apply onSocketClose_invariant|exact Hi].
Qed.

Lemma run_invariant acts : ∀ s, invariant s → invariant (fst (run acts s)).
Proof.
  induction acts as [|a acts IH]; intros s Hi; simpl; [exact Hi|].
  pose proof (perform_invariant a s Hi) as H1.
  destruct (perform a s) as [s1 e1]. simpl in H1.
  specialize (IH s1 H1). destruct (run acts s1) as [s2 e2]. exact IH.
Qed.

Lemma reachable_invariant s : reachable s → invariant s.
Proof.
  intros (id & cb & acts & <-). apply run_invariant, new_Server_invariant.
Qed.

Lemma reachable_perform a s : reachable s → reachable (fst (perform a s)).
Proof.
  intros (id & cb & acts & <-). exists id, cb, (acts ++ [a]).
  generalize (new_Server id cb). induction acts as [|b acts IH]; intros s0; simpl.
  - destruct (perform a s0) as [s1 e1]. reflexivity.
  - destruct (perform b s0) as [s1 e1]. specialize (IH s1).
    destruct (run (acts ++ [a]) s1) as [s2 e2].
    destruct (run acts s1) as [s3 e3]. exact IH.
Qed.

(** ** [listening] and the bound address *)

Lemma emit_keeps_listening event args s :
  registry_ok s → event ≠ "listening" →
  listening (fst (emit event args s)) = listening s.
Proof.
  intros Hr Hne. destruct (emit_spec event args s) as (_ & Hl & _).
  simpl in Hl. rewrite Hl, listeners_no_arrow by assumption. reflexivity.
Qed.

Lemma emit_keeps_local event args s :
  registry_ok s → event ≠ "close" →
  let s' := fst (emit event args s) in
  _localAddress s' = _localAddress s ∧ _localPort s' = _localPort s ∧
  _localFamily s' = _localFamily s.
Proof.
  intros Hr Hne. destruct (emit_spec event args s) as (_ & _ & Ha & _).
  simpl in Ha. rewrite listeners_no_disconnect in Ha by assumption. exact Ha.
Qed.

Lemma close_bound callback s :
  bound_when_listening s → bound_when_listening (fst (close callback s)).
Proof.
  unfold close, bound_when_listening.
  destruct (negb (truthy (_localAddress s))); simpl; [auto|discriminate].
Qed.

Lemma onListening_bound id c s :
  registry_ok s → bound_when_listening s →
  bound_when_listening (fst (onListening id c s)).
Proof.
  intros Hr Hb. unfold onListening. destruct (negb (id =? _id s)%Z); [exact Hb|].
  intros _.
  match goal with |- context [emit ?ev ?a ?s0] =>
    destruct (emit_keeps_local ev a s0) as (-> & -> & ->) end;
    [exact Hr|discriminate|simpl; eauto].
Qed.

Lemma onError_bound id e s :
  invariant s → bound_when_listening s →
  bound_when_listening (fst (onError id e s)).
Proof.
  intros Hi Hb. unfold onError. destruct (negb (id =? _id s)%Z); [exact Hb|].
  pose proof (close_invariant None s Hi) as H1.
  pose proof (close_bound None s Hb) as H2.
  destruct (close None s) as [s1 e1]. simpl in H1, H2.
  pose proof (emit_keeps_listening "error" [VString e] s1 (inv_registry _ H1)) as Hl.
  pose proof (emit_keeps_local "error" [VString e] s1 (inv_registry _ H1)) as Ha.
  destruct (emit "error" [VString e] s1) as [s2 e2]. simpl in *.
  unfold bound_when_listening in *.
  rewrite Hl by discriminate. destruct Ha as (-> & -> & ->); [discriminate|exact H2].
Qed.

Lemma onConnection_bound id info s :
  registry_ok s → bound_when_listening s →
  bound_when_listening (fst (onConnection id info s)).
Proof.
  intros Hr Hb. unfold onConnection. destruct (negb (id =? _id s)%Z); [exact Hb|].
  simpl.
  match goal with |- context [emit ?ev ?a ?s0] =>
    pose proof (emit_keeps_listening ev a s0 Hr) as Hl;
    pose proof (emit_keeps_local ev a s0 Hr) as Ha;
    destruct (emit ev a s0) as [s4 e4] end.
  simpl in *. unfold bound_when_listening in *.
  rewrite Hl by discriminate. destruct Ha as (-> & -> & ->); [discriminate|exact Hb].
Qed.

Lemma onSocketClose_bound ref s :
  registry_ok s → bound_when_listening s →
  bound_when_listening (fst (onSocketClose ref s)).
Proof.
  intros Hr Hb. unfold onSocketClose. simpl.
  destruct (listening s) eqn:El; simpl.
  - unfold bound_when_listening in *. simpl. rewrite El. intros _. exact (Hb El).
  - match goal with |- context [if ?b then _ else _] => destruct b end.
    + unfold bound_when_listening.
      rewrite emit_keeps_listening by (exact Hr || discriminate).
      simpl. rewrite El. discriminate.
    + unfold bound_when_listening. simpl. rewrite El. discriminate.
Qed.

Lemma perform_bound a s :
  is_destroy a = false → invariant s → bound_when_listening s →
  bound_when_listening (fst (perform a s)).
Proof.
  intros Hd Hi Hb. pose proof (inv_registry _ Hi) as Hr.
  destruct a as [o cb|cb|cb| |ev cb|ev cb|evt|ref]; simpl; try exact Hb.
  - destruct (listen [o] s 0 cb) as [[m|st s' eff]|] eqn:E; simpl; try exact Hb.
    apply listen_inv in E as (_ & o' & _ & _ & -> & _). exact Hb.
  - by apply close_bound.
  - discriminate.
  - unfold deliver. destruct (subscribed (subscription_of evt) s); [|exact Hb].
    destruct evt as [id c|id e|id i]; simpl.
    + by apply onListening_bound.
    + by apply onError_bound.
    + by apply onConnection_bound.
  - unfold socketCloses. case_bool_decide; [by apply onSocketClose_bound|exact Hb].
Qed.

Lemma run_bound acts : ∀ s,
  existsb is_destroy acts = false → invariant s → bound_when_listening s →
  bound_when_listening (fst (run acts s)).
Proof.
  induction acts as [|a acts IH]; intros s Hd Hi Hb; simpl; [exact Hb|].
  simpl in Hd. apply orb_false_iff in Hd as [Ha Hd].
  pose proof (perform_invariant a s Hi) as H1.
  pose proof (perform_bound a s Ha Hi Hb) as H2.
  destruct (perform a s) as [s1 e1]. simpl in H1, H2.
  specialize (IH s1 Hd H1 H2). destruct (run acts s1) as [s2 e2]. exact IH.
Qed.

(** ** The lifecycle of the aggregate [close] event *)

Lemma emits_app event l1 l2 :
  emits event (l1 ++ l2) ↔ emits event l1 ∨ emits event l2.
Proof.
  unfold emits. split.
  - intros [a H]. apply in_app_or in H as [H|H]; eauto.
  - intros [[a H]|[a H]]; exists a; apply in_or_app; auto.
Qed.

Lemma close_effects callback s event : ¬ emits event (snd (close callback s)).
Proof.
  unfold close. intros [a H].
  destruct (negb (truthy (_localAddress s))); [destruct callback|]; simpl in H;
    intuition discriminate.
Qed.

Lemma handle_emits evt s event :
  emits event (snd (handle evt s)) →
  event = match evt with
          | EvListening _ _ => "listening"
          | EvError _ _ => "error"
          | EvConnection _ _ => "connection"
          end.
Proof.
  destruct evt as [id c|id e|id i]; simpl.
  - unfold onListening. destruct (negb (id =? _id s)%Z).
    + intros [a []].
    + apply emit_emits.
  - unfold onError. destruct (negb (id =? _id s)%Z); [intros [a []]|].
    pose proof (close_effects None s event) as Hc.
    destruct (close None s) as [s1 e1].
    pose proof (emit_emits "error" [VString e] s1 event) as He.
    destruct (emit "error" [VString e] s1) as [s2 e2]. simpl in *.
    rewrite emits_app. intros [H|H]; [contradiction|by apply He].
  - unfold onConnection. destruct (negb (id =? _id s)%Z); [intros [a []]|].
    simpl.
    match goal with |- context [emit ?ev ?a ?s0] =>
      pose proof (emit_emits ev a s0 event) as He;
      destruct (emit ev a s0) as [s4 e4] end.
    simpl in *. intros [a [H|H]]; [discriminate|]. apply He. by exists a.
Qed.

Lemma listen_effects o callback s event :
  ¬ emits event (snd (perform (DoListen o callback) s)).
Proof.
  simpl. intros [a H].
  destruct (listen [o] s 0 callback) as [[m|st s' eff]|] eqn:E; simpl in H.
  - intuition discriminate.
  - apply listen_inv in E as (_ & o' & _ & _ & _ & ->).
    simpl in H. intuition discriminate.
  - contradiction.
Qed.

Lemma onSocketClose_emits ref s :
  emits "close" (snd (onSocketClose ref s)) ↔
  listening s = false ∧ _connections s ∖ {[ ref ]} = ∅.
Proof.
  unfold onSocketClose. simpl.
  destruct (listening s) eqn:El; simpl.
  - split; [intros [a []]|intros [? _]; discriminate].
  - destruct (size (_connections s ∖ {[ref]}) =? 0)%nat eqn:Es.
    + apply Nat.eqb_eq, size_empty_iff in Es. apply leibniz_equiv in Es.
      split; [auto|]. intros _. by apply emit_emits.
    + apply Nat.eqb_neq in Es. split; [intros [a []]|].
      intros [_ He]. rewrite He, size_empty in Es. contradiction.
Qed.

Lemma onSocketClose_after ref s :
  registry_ok s → emits "close" (snd (onSocketClose ref s)) →
  listening (fst (onSocketClose ref s)) = false ∧
  _connections (fst (onSocketClose ref s)) = ∅.
Proof.
  intros Hr He. pose proof He as [Hl Hc]%onSocketClose_emits.
  unfold onSocketClose. simpl. rewrite Hl, Hc, size_empty. simpl.
  set (s1 := set_connections ∅ s).
  assert (Hr1 : registry_ok s1) by exact Hr.
  split.
  - rewrite emit_keeps_listening by (exact Hr1 || discriminate). exact Hl.
  - destruct (emit_spec "close" [] s1) as ((_ & H & _) & _). exact H.
Qed.

(** C1 (as amended).  Apart from [destroy], the only step that emits the
    public [close] event is the close listener of an accepted socket, and
    it emits it exactly when, once that socket is removed, the server is
    not listening and the connection set is empty; the server is then
    still not listening and without connections when the step ends.  So
    closing a server with open accepted sockets emits no [close] before
    the last of them has closed. *)
Theorem close_emitted_by_last_socket a s :
  reachable s → is_destroy a = false →
  (emits "close" (snd (perform a s)) ↔
     ∃ ref, a = SocketCloses ref ∧ ref ∈ closeListeners s ∧
            listening s = false ∧ _connections s ∖ {[ ref ]} = ∅) ∧
  (emits "close" (snd (perform a s)) →
     listening (fst (perform a s)) = false ∧
     _connections (fst (perform a s)) = ∅).
Proof.
  intros Hreach Hd. apply reachable_invariant in Hreach.
  pose proof (inv_registry _ Hreach) as Hr.
  assert (Hno : ∀ b, (∀ ref, b ≠ SocketCloses ref) →
            ¬ emits "close" (snd (perform b s)) →
            (emits "close" (snd (perform b s)) ↔
               ∃ ref, b = SocketCloses ref ∧ ref ∈ closeListeners s ∧
                      listening s = false ∧ _connections s ∖ {[ ref ]} = ∅) ∧
            (emits "close" (snd (perform b s)) →
               listening (fst (perform b s)) = false ∧
               _connections (fst (perform b s)) = ∅)).
  { intros b Hb Hc. split; [split|]; try (intros H; destruct (Hc H)).
    intros (ref & Hab & _). destruct (Hb ref Hab). }
  destruct a as [o cb|cb|cb| |ev cb|ev cb|evt|ref]; try discriminate.
  - apply Hno; [discriminate|]. apply listen_effects.
  - apply Hno; [discriminate|]. simpl. intros [a [H|[]]]. discriminate.
  - apply Hno; [discriminate|]. apply close_effects.
  - apply Hno; [discriminate|]. intros [a []].
  - apply Hno; [discriminate|]. intros [a []].
  - apply Hno; [discriminate|]. simpl. unfold deliver.
    destruct (subscribed (subscription_of evt) s).
    + intros H%handle_emits. destruct evt; discriminate.
    + intros [a []].
  - simpl. unfold socketCloses. case_bool_decide as Hw.
    + split.
      * rewrite onSocketClose_emits. split.
        -- intros [Hl Hc]. exists ref. auto.
        -- intros (r & [= <-] & _ & Hl & Hc). auto.
      * by apply onSocketClose_after.
    + split; [split|].
      * intros [a []].
      * intros (r & [= <-] & Hin & _). contradiction.
      * intros [a []].
Qed.

(** Witness of C1: in server 7, closed while its one accepted socket was
    open, the close of that socket emits [close]. *)
Lemma close_emitted_by_last_socket_witness :
  let s := fst (run [DoClose None] server_accepting) in
  emits "close" (snd (perform (SocketCloses 0) s)) ∧
  listening (fst (perform (SocketCloses 0) s)) = false ∧
  _connections (fst (perform (SocketCloses 0) s)) = ∅.
Proof.
  intros s.
  assert (Hr : reachable s).
  { exists 7%Z, None,
      [DoListen port_12345 None; Deliver (EvListening 7 wildcard_12345);
       Deliver (EvConnection 7 peer); DoClose None].
    vm_compute. reflexivity. }
  destruct (close_emitted_by_last_socket (SocketCloses 0) s Hr eq_refl)
    as [_ Hafter].
  assert (He : emits "close" (snd (perform (SocketCloses 0) s))).
  { exists []. vm_compute. left. reflexivity. }
  split; [exact He|exact (Hafter He)].
Defined.

(** Two accepted sockets: after [close(callback)] the first socket to close
    emits nothing, the second one emits [close] and the callback runs. *)
Example close_waits_for_both_sockets :
  let s := fst (run [Deliver (EvConnection 7 peer); Deliver (EvConnection 7 peer);
                     DoClose (Some 5)] server_listening) in
  size (_connections s) = 2 ∧
  snd (run [SocketCloses 0] s) = [] ∧
  snd (run [SocketCloses 0; SocketCloses 1] s) = [Emit "close" []; Call 5 []].
Proof. vm_compute. repeat split. Qed.

(** C1 (as stated) fails: [destroy] emits [close] at once, here on a server
    that is listening and has one open accepted socket. *)
Lemma destroy_emits_close_at_once :
  listening server_accepting = true ∧
  size (_connections server_accepting) = 1 ∧
  snd (perform DoDestroy server_accepting) = [Emit "close" []] ∧
  listening (fst (perform DoDestroy server_accepting)) = true ∧
  size (_connections (fst (perform DoDestroy server_accepting))) = 1.
Proof. vm_compute. repeat split. Qed.

(** ** [listen] and the [listening] event *)

Lemma listen_registers store s options callback store' s' eff :
  listen store s options callback = Some (Returned store' s' eff) →
  listen_pending s'.
Proof.
  intros (_ & o & _ & _ & -> & _)%listen_inv. exists callback.
  unfold once. simpl. apply in_or_app. right. left. reflexivity.
Qed.

Lemma address_bound a p f s :
  _localAddress s = Some a → _localPort s = Some p → _localFamily s = Some f →
  address s =
    if String.eqb a "" then None
    else Some {| AddressInfo.address := a; AddressInfo.port := p;
                 AddressInfo.family := f |}.
Proof.
  intros Ha Hp Hf. unfold address, truthy. rewrite Ha, Hp, Hf.
  destruct (String.eqb a ""); reflexivity.
Qed.

Lemma onListening_matching c s :
  registry_ok s →
  let s' := fst (onListening (_id s) c s) in
  _localAddress s' = Some (localAddress c) ∧
  _localPort s' = Some (localPort c) ∧
  _localFamily s' = Some (localFamily c) ∧
  listening s' = existsb is_arrow (listeners "listening" s) || listening s ∧
  ∃ calls, snd (onListening (_id s) c s) = Emit "listening" [] :: calls ∧
           forallb is_call calls = true.
Proof.
  intros Hr. unfold onListening. rewrite Z.eqb_refl. simpl.
  set (s1 := set_local _ _ _ s).
  destruct (emit_keeps_local "listening" [] s1) as (-> & -> & ->);
    [exact Hr|discriminate|].
  destruct (emit_spec "listening" [] s1) as (_ & Hl & _ & Hc).
  repeat split; [exact Hl|exact Hc].
Qed.

(** C2 (as amended).  On a server with a [listen] call waiting for its
    event, the routed [listening] event with the server's id stores the
    event's address, port and family, sets [listening] to true and emits
    the public [listening] event first; [address()] then returns exactly
    these three values, unless the event's address is the empty string, in
    which case it returns null. *)
Theorem listening_event_binds c s :
  reachable s → listen_pending s →
  let s' := fst (deliver (EvListening (_id s) c) s) in
  let eff := snd (deliver (EvListening (_id s) c) s) in
  _localAddress s' = Some (localAddress c) ∧
  _localPort s' = Some (localPort c) ∧
  _localFamily s' = Some (localFamily c) ∧
  listening s' = true ∧
  (∃ calls, eff = Emit "listening" [] :: calls ∧ forallb is_call calls = true) ∧
  address s' =
    if String.eqb (localAddress c) "" then None
    else Some {| AddressInfo.address := localAddress c;
                 AddressInfo.port := localPort c;
                 AddressInfo.family := localFamily c |}.
Proof.
  intros Hreach Hp. apply reachable_invariant in Hreach.
  unfold deliver. simpl. rewrite (inv_subscribed _ Hreach). simpl.
  destruct (onListening_matching c s (inv_registry _ Hreach))
    as (Ha & Hpo & Hf & Hl & Hc).
  rewrite listeners_pending_arrow in Hl by exact Hp.
  repeat split; try assumption. by apply address_bound.
Qed.

(** Witness of C2, the scenario of the spec: after [listen({port: 12345})]
    and the event for 0.0.0.0, port 12345, IPv4, the server is listening
    and [address()] returns these values. *)
Lemma listening_event_binds_witness :
  let s' := fst (deliver (EvListening 7 wildcard_12345) server_pending) in
  listening s' = true ∧
  address s' = Some {| AddressInfo.address := "0.0.0.0";
                       AddressInfo.port := 12345;
                       AddressInfo.family := "IPv4" |}.
Proof.
  assert (Hr : reachable server_pending).
  { exists 7%Z, None, [DoListen port_12345 None]. vm_compute. reflexivity. }
  assert (Hp : listen_pending server_pending).
  { exists None. vm_compute. right. left. reflexivity. }
  destruct (listening_event_binds wildcard_12345 server_pending Hr Hp)
    as (_ & _ & _ & Hl & _ & Ha).
  split; [exact Hl|exact Ha].
Defined.

(** C2 (as stated) fails twice.  A [listening] event that reports the empty
    address leaves [address()] null; and on a server whose [listen] call
    was already answered and which was then closed, a further [listening]
    event does not set [listening]. *)
Lemma listening_event_falls_short :
  (let s' := fst (deliver (EvListening 7 unnamed_12345) server_pending) in
   listening s' = true ∧ address s' = None) ∧
  (let s := fst (run [DoClose None] server_listening) in
   let s' := fst (deliver (EvListening 7 wildcard_12345) s) in
   listening s' = false).
Proof. vm_compute. repeat split. Qed.

(** On an unbound server [listen] returns and sends the native command. *)
Lemma listen_unbound_accepts o callback s :
  _localAddress s = None →
  perform (DoListen o callback) s =
    (once "listening" (ListenArrow callback) s,
     [NativeListen (_id s) (host_or_default o)]).
Proof.
  intros Hs. simpl. by rewrite (listen_unbound [o] s 0 callback o Hs).
Qed.

(** Once a [listening] event has been processed, [listen] throws and sends
    nothing. *)
Lemma listen_after_listening_event c o callback s :
  registry_ok s →
  perform (DoListen o callback) (fst (onListening (_id s) c s)) =
    (fst (onListening (_id s) c s), [Throw ERR_SERVER_ALREADY_LISTEN]).
Proof.
  intros Hr. destruct (onListening_matching c s Hr) as (Ha & _).
  simpl. rewrite listen_bound; [reflexivity|]. rewrite Ha. discriminate.
Qed.

(** C3 fails on the code: the guard of [listen] looks at the bound address,
    which only the [listening] event sets.  Two calls in a row on a new
    server, with no event in between, both return and both send the native
    listen command. *)
Theorem listen_twice_sends_twice id connectionCallback o1 c1 o2 c2 :
  snd (run [DoListen o1 c1; DoListen o2 c2] (new_Server id connectionCallback))
  = [NativeListen id (host_or_default o1); NativeListen id (host_or_default o2)].
Proof.
  assert (H0 : _localAddress (new_Server id connectionCallback) = None)
    by (destruct connectionCallback; reflexivity).
  unfold run. rewrite (listen_unbound_accepts o1 c1 _ H0).
  rewrite listen_unbound_accepts by exact H0.
  destruct connectionCallback; reflexivity.
Qed.

(** The failing input of C3: [listen({port: 12345})] twice on server 7. *)
Example listen_twice_port_12345 :
  snd (run [DoListen port_12345 None; DoListen port_12345 None]
         (new_Server 7 None))
  = [NativeListen 7 (ListenOptions.mk 12345 (Some "0.0.0.0") None);
     NativeListen 7 (ListenOptions.mk 12345 (Some "0.0.0.0") None)].
Proof. vm_compute. reflexivity. Qed.

(** ** [close], [address] and [getConnections] *)

(** C4.  On a server without bound address, [close(callback)] calls the
    callback at once with the error [ERR_SERVER_NOT_RUNNING], sends no
    native command and leaves the server as it was. *)
Theorem close_not_running callback s :
  _localAddress s = None →
  close (Some callback) s = (s, [Call callback [VError ERR_SERVER_NOT_RUNNING]]).
Proof. intros H. unfold close. rewrite H. reflexivity. Qed.

(** Witness of C4: a new server. *)
Lemma close_not_running_witness :
  close (Some 1) (new_Server 7 None)
  = (new_Server 7 None, [Call 1 [VError ERR_SERVER_NOT_RUNNING]]).
Proof. apply (close_not_running 1 (new_Server 7 None)). reflexivity. Defined.


(** C5 (as amended).  In every state reached without [destroy], a
    listening server has its address, port and family set, and [address()]
    returns them when the address is not the empty string. *)
Theorem listening_implies_bound id connectionCallback acts :
  existsb is_destroy acts = false →
  let s := fst (run acts (new_Server id connectionCallback)) in
  listening s = true →
  ∃ a p f,
    _localAddress s = Some a ∧ _localPort s = Some p ∧ _localFamily s = Some f ∧
    (a ≠ "" →
     address s = Some {| AddressInfo.address := a; AddressInfo.port := p;
                         AddressInfo.family := f |}).
Proof.
  intros Hd s Hl.
  assert (Hb : bound_when_listening s).
  { apply run_bound; [exact Hd|apply new_Server_invariant|].
    intros H. destruct connectionCallback; discriminate. }
  destruct (Hb Hl) as ([a Ha] & [p Hp] & [f Hf]).
  exists a, p, f. repeat split; try assumption.
  intros Hne. rewrite (address_bound a p f s Ha Hp Hf).
  destruct (String.eqb a "") eqn:E; [|reflexivity].
  apply String.eqb_eq in E. contradiction.
Qed.

(** Witness of C5: server 7 after [listen] and its [listening] event. *)
Lemma listening_implies_bound_witness :
  ∃ a p f,
    _localAddress server_listening = Some a ∧
    _localPort server_listening = Some p ∧
    _localFamily server_listening = Some f ∧
    (a ≠ "" →
     address server_listening =
       Some {| AddressInfo.address := a; AddressInfo.port := p;
               AddressInfo.family := f |}).
Proof.
  apply (listening_implies_bound 7 None
           [DoListen port_12345 None; Deliver (EvListening 7 wildcard_12345)]).
  - reflexivity.
  - vm_compute. reflexivity.
Defined.

(** C5 (as stated) fails in both directions.  After [close()] the server
    no longer listens but keeps its bound address, which only the [close]
    event clears; after [destroy()] a listening server has lost its address
    and still has [listening] set; and a server that listens on an event
    with the empty address has [address()] null. *)
Lemma listening_and_address_diverge :
  (let s := fst (run [DoClose None] server_listening) in
   listening s = false ∧
   address s = Some {| AddressInfo.address := "0.0.0.0";
                       AddressInfo.port := 12345;
                       AddressInfo.family := "IPv4" |}) ∧
  (let s := fst (run [DoDestroy] server_listening) in
   listening s = true ∧ _localAddress s = None ∧ address s = None) ∧
  (let s := fst (run [Deliver (EvListening 7 unnamed_12345)] server_pending) in
   listening s = true ∧ _localAddress s = Some "" ∧ address s = None).
Proof. vm_compute. repeat split. Qed.

(** C8.  [getConnections(callback)] calls the callback once, with null
    and the size of the connection set; it sends nothing to the native
    side and leaves the server as it was. *)
Theorem getConnections_reports_size callback s :
  fst (getConnections callback s) = s ∧
  snd (getConnections callback s)
  = [Call callback [VNull; VNumber (Z.of_nat (size (_connections s)))]].
Proof. split; reflexivity. Qed.

(** ** Native events *)

(** C9.  A native event that carries another id leaves the server as it
    was and has no effect, whether seen by the handler or through the
    emitter. *)
Theorem foreign_event_ignored evt s :
  event_id evt ≠ _id s →
  handle evt s = (s, []) ∧ deliver evt s = (s, []).
Proof.
  intros Hne. apply Z.eqb_neq in Hne.
  assert (H : handle evt s = (s, [])).
  { destruct evt; simpl in *; unfold onListening, onError, onConnection;
      rewrite Hne; reflexivity. }
  split; [exact H|]. unfold deliver. rewrite H.
  destruct (subscribed (subscription_of evt) s); reflexivity.
Qed.

(** Witness of C9: an event for endpoint 8 on the listening server 7. *)
Lemma foreign_event_ignored_witness :
  handle (EvConnection 8 peer) server_listening = (server_listening, []) ∧
  deliver (EvConnection 8 peer) server_listening = (server_listening, []).
Proof.
  apply (foreign_event_ignored (EvConnection 8 peer) server_listening).
  vm_compute. discriminate.
Defined.

Lemma _buildSocket_ignores_info info info' s :
  fst (fst (_buildSocket info s)) = fst (fst (_buildSocket info' s)) ∧
  socket_connection (fst (fst (_buildSocket info s))) = None.
Proof. split; reflexivity. Qed.

(** What the connection handler does for an event with the server's id:
    the socket it builds is new, joins the connection set, carries the
    close listener that removes it again, and is announced by the public
    [connection] event. *)
Lemma connection_event_accepts info s :
  invariant s →
  let newSocket := new_Socket (allocated s) in
  let s' := fst (handle (EvConnection (_id s) info) s) in
  (allocated s ∉ _connections s) ∧
  _connections s' = {[ allocated s ]} ∪ _connections s ∧
  size (_connections s') = S (size (_connections s)) ∧
  allocated s ∈ closeListeners s' ∧
  _connections (fst (socketCloses (allocated s) s')) = _connections s ∧
  ∃ calls,
    snd (handle (EvConnection (_id s) info) s)
    = ConsoleWarn info :: Emit "connection" [VSocket newSocket] :: calls ∧
    forallb is_call calls = true.
Proof.
  intros Hi. simpl. unfold onConnection. rewrite Z.eqb_refl. simpl.
  assert (Hfresh : allocated s ∉ _connections s).
  { intros Hin. apply (inv_watched _ Hi), (inv_fresh _ Hi) in Hin. lia. }
  match goal with |- context [emit ?ev ?a ?s0] =>
    destruct (emit_spec ev a s0) as ((_ & Hc & _ & _ & Hw & _) & _ & _ & Hcalls);
    destruct (emit ev a s0) as [s4 e4] end.
  simpl in *. destruct Hcalls as (calls & -> & Hcalls).
  split; [exact Hfresh|]. split; [exact Hc|].
  split.
  { rewrite Hc, size_union by (by apply disjoint_singleton_l).
    by rewrite size_singleton. }
  split; [rewrite Hw; apply elem_of_union_l, elem_of_singleton; reflexivity|].
  split; [|eauto].
  unfold socketCloses. rewrite bool_decide_eq_true_2 by (rewrite Hw; apply elem_of_union_l, elem_of_singleton; reflexivity).
  unfold onSocketClose. simpl. rewrite Hc.
  assert (Hs : ({[allocated s]} ∪ _connections s) ∖ {[allocated s]} = _connections s).
  { rewrite difference_union_distr_l_L, difference_diag_L, union_empty_l_L.
    by apply difference_disjoint_L, disjoint_singleton_r. }
  rewrite Hs.
  match goal with |- context [if ?b then _ else _] => destruct b end;
    [|reflexivity].
  match goal with |- context [emit ?ev ?a ?s0] =>
    destruct (emit_spec ev a s0) as ((_ & Hc' & _) & _) end.
  exact Hc'.
Qed.

(** C6 fails on the code: [_buildSocket] only prints the event's info.
    Whatever info the connection event for the listening server 7 carries,
    the socket announced by the public [connection] event is the same
    blank new Socket, unconnected and without connection info; the
    connection set does grow by that socket. *)
Theorem accepted_socket_is_blank info :
  snd (deliver (EvConnection 7 info) server_listening)
  = [ConsoleWarn info;
     Emit "connection"
       [VSocket {| socket_ref := 0; socket_state := Unconnected;
                   socket_connection := None |}]] ∧
  size (_connections (fst (deliver (EvConnection 7 info) server_listening))) = 1.
Proof. vm_compute. split; reflexivity. Qed.

(** C7 (as amended).  For an [error] event with the server's id the
    handler first runs [close()] without callback and then emits the public
    [error] event with the event's error.  If a non-empty address is
    bound, the close sends the native close command and the server is not
    listening afterwards; otherwise the close does nothing. *)
Theorem error_event_closes_then_reports error s :
  reachable s →
  let s' := fst (handle (EvError (_id s) error) s) in
  let eff := snd (handle (EvError (_id s) error) s) in
  (∃ calls, eff = snd (close None s) ++ Emit "error" [VString error] :: calls ∧
            forallb is_call calls = true) ∧
  (if truthy (_localAddress s)
   then snd (close None s) = [NativeClose (_id s)] ∧ listening s' = false
   else snd (close None s) = [] ∧ listening s' = listening s).
Proof.
  intros Hreach. apply reachable_invariant in Hreach.
  simpl. unfold onError. rewrite Z.eqb_refl. simpl.
  pose proof (close_invariant None s Hreach) as Hi1.
  assert (Hl1 : listening (fst (close None s)) =
                if truthy (_localAddress s) then false else listening s).
  { unfold close. destruct (truthy (_localAddress s)); reflexivity. }
  assert (He1 : snd (close None s) =
                if truthy (_localAddress s) then [NativeClose (_id s)] else []).
  { unfold close. destruct (truthy (_localAddress s)); reflexivity. }
  destruct (close None s) as [s1 e1]. simpl in *.
  pose proof (emit_keeps_listening "error" [VString error] s1 (inv_registry _ Hi1)) as Hl.
  destruct (emit_spec "error" [VString error] s1) as (_ & _ & _ & calls & Hc & Hcalls).
  destruct (emit "error" [VString error] s1) as [s2 e2]. simpl in *.
  split.
  - exists calls. by rewrite Hc.
  - rewrite Hl by discriminate. rewrite Hl1, He1.
    destruct (truthy (_localAddress s)); split; reflexivity.
Qed.

(** Witness of C7: the listening server 7 receives an error. *)
Lemma error_event_closes_then_reports_witness :
  let s' := fst (handle (EvError 7 "EADDRINUSE") server_listening) in
  let eff := snd (handle (EvError 7 "EADDRINUSE") server_listening) in
  (∃ calls, eff = [NativeClose 7] ++ Emit "error" [VString "EADDRINUSE"] :: calls ∧
            forallb is_call calls = true) ∧
  listening s' = false.
Proof.
  assert (Hr : reachable server_listening).
  { exists 7%Z, None,
      [DoListen port_12345 None; Deliver (EvListening 7 wildcard_12345)].
    vm_compute. reflexivity. }
  destruct (error_event_closes_then_reports "EADDRINUSE" server_listening Hr)
    as [Heff Hst].
  split; [exact Heff|exact (proj2 Hst)].
Defined.

(** C7 (as stated) fails on the order: the native close command is sent
    before the public [error] event is emitted, not after it. *)
Lemma error_event_closes_first :
  snd (deliver (EvError 7 "EADDRINUSE") server_listening)
  = [NativeClose 7; Emit "error" [VString "EADDRINUSE"]] ∧
  ¬ before (Emit "error" [VString "EADDRINUSE"]) (NativeClose 7)
      (snd (deliver (EvError 7 "EADDRINUSE") server_listening)).
Proof.
  assert (H : snd (deliver (EvError 7 "EADDRINUSE") server_listening)
              = [NativeClose 7; Emit "error" [VString "EADDRINUSE"]])
    by (vm_compute; reflexivity).
  split; [exact H|]. rewrite H. intros (l1 & l2 & l3 & Heq).
  destruct l1 as [|x [|y l1]]; simpl in Heq.
  - discriminate.
  - injection Heq as _ Heq. destruct l2; discriminate.
  - injection Heq as _ _ Heq. destruct l1; discriminate.
Qed.

(** ** The caller's options object *)

(** C10.  [listen] leaves the caller's options object as it was: the host
    default goes to a copy in another cell of the store, and it is the
    copy that is sent to the native side. *)
Theorem listen_keeps_options store s options callback o :
  store !! options = Some o →
  match listen store s options callback with
  | Some (Returned store' s' eff) =>
      store' !! options = Some o ∧
      (∃ gotOptions, gotOptions ≠ options ∧
         store' !! gotOptions = Some (host_or_default o)) ∧
      eff = [NativeListen (_id s) (host_or_default o)]
  | Some (Thrown message) => message = ERR_SERVER_ALREADY_LISTEN
  | None => False
  end.
Proof.
  intros Ho. destruct (_localAddress s) as [a|] eqn:Ha.
  - rewrite listen_bound by congruence. reflexivity.
  - rewrite (listen_unbound store s options callback o Ha Ho). lazy beta iota.
    pose proof (lookup_lt_Some _ _ _ Ho) as Hlt.
    split; [by rewrite lookup_app_l|]. split; [|reflexivity].
    exists (length store). split; [lia|].
    rewrite lookup_app_r by lia. by rewrite Nat.sub_diag.
Qed.

(** Witness of C10: [listen({port: 12345})] on a new server; the caller's
    object still has no host, the copy has the wildcard address. *)
Lemma listen_keeps_options_witness :
  match listen [port_12345] (new_Server 7 None) 0 None with
  | Some (Returned store' s' eff) =>
      store' !! 0 = Some port_12345 ∧
      (∃ gotOptions, gotOptions ≠ 0 ∧
         store' !! gotOptions = Some (host_or_default port_12345)) ∧
      eff = [NativeListen 7 (host_or_default port_12345)]
  | Some (Thrown message) => message = ERR_SERVER_ALREADY_LISTEN
  | None => False
  end.
Proof.
  apply (listen_keeps_options [port_12345] (new_Server 7 None) 0 None port_12345).
  reflexivity.
Defined.

(** * Further properties of the server *)

(** ** Where effects come from *)

Lemma emit_id event args s : _id (fst (emit event args s)) = _id s.
Proof. destruct (emit_spec event args s) as ((H & _) & _). exact H. Qed.

Lemma emit_not_native event args s e :
  In e (snd (emit event args s)) → is_native e = false.
Proof.
  destruct (emit_spec event args s) as (_ & _ & _ & calls & -> & Hc).
  intros [<-|H]; [reflexivity|].
  rewrite forallb_forall in Hc. apply Hc in H. by destruct e.
Qed.

Lemma close_id callback s : _id (fst (close callback s)) = _id s.
Proof.
  unfold close. destruct (negb (truthy (_localAddress s))); [reflexivity|].
  destruct callback; reflexivity.
Qed.

Lemma handle_id evt s : _id (fst (handle evt s)) = _id s.
Proof.
  destruct evt as [id c|id e|id i]; simpl.
  - unfold onListening. destruct (negb (id =? _id s)%Z); [reflexivity|].
    by rewrite emit_id.
  - unfold onError. destruct (negb (id =? _id s)%Z); [reflexivity|].
    pose proof (close_id None s) as H1. destruct (close None s) as [s1 e1].
    pose proof (emit_id "error" [VString e] s1) as H2.
    destruct (emit "error" [VString e] s1) as [s2 e2]. simpl in *. congruence.
  - unfold onConnection. destruct (negb (id =? _id s)%Z); [reflexivity|]. simpl.
    match goal with |- context [emit ?ev ?a ?s0] =>
      pose proof (emit_id ev a s0) as H; destruct (emit ev a s0) as [s4 e4] end.
    exact H.
Qed.

Lemma perform_id a s : _id (fst (perform a s)) = _id s.
Proof.
  destruct a as [o cb|cb|cb| |ev cb|ev cb|evt|ref]; simpl; try reflexivity.
  - destruct (listen [o] s 0 cb) as [[m|st s' eff]|] eqn:E; simpl; try reflexivity.
    by apply listen_inv in E as (_ & o' & _ & _ & -> & _).
  - apply close_id.
  - unfold destroy. pose proof (emit_id "close" [] s) as H.
    destruct (emit "close" [] s) as [s1 e1]. simpl in *.
    destruct (_errorListener s1), (_connectionsListener _); exact H.
  - unfold deliver. destruct (subscribed _ s); [apply handle_id|reflexivity].
  - unfold socketCloses, onSocketClose. case_bool_decide; [|reflexivity].
    match goal with |- context [if ?b then _ else _] => destruct b end;
      [by rewrite emit_id|reflexivity].
Qed.

Lemma run_id acts : ∀ s, _id (fst (run acts s)) = _id s.
Proof.
  induction acts as [|a acts IH]; intros s; simpl; [reflexivity|].
  pose proof (perform_id a s) as H1. destruct (perform a s) as [s1 e1].
  specialize (IH s1). destruct (run acts s1) as [s2 e2]. simpl in *. congruence.
Qed.

(** One step sends native commands only for [listen], for [close] and for
    the [error] event, and only for the server's own id. *)
Lemma perform_native a s e :
  In e (snd (perform a s)) → is_native e = true →
  native_id e = Some (_id s) ∧
  match a with
  | DoListen _ _ | DoClose _ | Deliver (EvError _ _) => True
  | _ => False
  end.
Proof.
  intros Hin Hn.
  destruct a as [o cb|cb|cb| |ev cb|ev cb|evt|ref]; simpl in Hin.
  - destruct (listen [o] s 0 cb) as [[m|st s' eff]|] eqn:E; simpl in Hin.
    + destruct Hin as [<-|[]]. discriminate.
    + apply listen_inv in E as (_ & o' & _ & _ & _ & ->).
      destruct Hin as [<-|[]]. split; [reflexivity|exact I].
    + destruct Hin.
  - destruct Hin as [<-|[]]. discriminate.
  - unfold close in Hin. destruct (negb (truthy (_localAddress s))).
    + destruct cb; simpl in Hin; [destruct Hin as [<-|[]]; discriminate|destruct Hin].
    + destruct Hin as [<-|[]]. split; [|exact I]. by destruct cb.
  - unfold destroy in Hin. pose proof (emit_not_native "close" [] s e) as H.
    destruct (emit "close" [] s) as [s1 e1]. simpl in *.
    rewrite (H Hin) in Hn. discriminate.
  - destruct Hin.
  - destruct Hin.
  - unfold deliver in Hin. destruct (subscribed _ s); [|destruct Hin].
    destruct evt as [id c|id err|id i]; simpl in Hin.
    + unfold onListening in Hin. destruct (negb (id =? _id s)%Z); [destruct Hin|].
      apply emit_not_native in Hin. congruence.
    + split; [|exact I]. unfold onError in Hin.
      destruct (negb (id =? _id s)%Z); [destruct Hin|].
      unfold close in Hin.
      destruct (negb (truthy (_localAddress s))); simpl in Hin.
      * pose proof (emit_not_native "error" [VString err] s e) as H.
        destruct (emit "error" [VString err] s) as [s2 e2]. simpl in *.
        rewrite (H Hin) in Hn. discriminate.
      * match type of Hin with context [emit ?ev ?a ?s0] =>
          pose proof (emit_not_native ev a s0 e) as H;
          destruct (emit ev a s0) as [s2 e2] end.
        simpl in *. destruct Hin as [<-|Hin]; [reflexivity|].
        rewrite (H Hin) in Hn. discriminate.
    + unfold onConnection in Hin. destruct (negb (id =? _id s)%Z); [destruct Hin|].
      simpl in Hin.
      match type of Hin with context [emit ?ev ?a ?s0] =>
        pose proof (emit_not_native ev a s0 e) as H;
        destruct (emit ev a s0) as [s4 e4] end.
      simpl in *. destruct Hin as [<-|Hin]; [discriminate|].
      rewrite (H Hin) in Hn. discriminate.
  - unfold socketCloses, onSocketClose in Hin. case_bool_decide; [|destruct Hin].
    match type of Hin with context [if ?b then _ else _] => destruct b end;
      [|destruct Hin].
    apply emit_not_native in Hin. congruence.
Qed.

(** X1.  Whatever happens to a server built with id [id], every command it
    sends to the native module names [id]. *)
Theorem native_commands_name_own_id id connectionCallback acts e i :
  In e (snd (run acts (new_Server id connectionCallback))) →
  native_id e = Some i → i = id.
Proof.
  assert (Hid : _id (new_Server id connectionCallback) = id)
    by (destruct connectionCallback; reflexivity).
  revert Hid. generalize (new_Server id connectionCallback).
  induction acts as [|a acts IH]; intros s Hid Hin Hn; simpl in Hin; [destruct Hin|].
  pose proof (perform_id a s) as H1. pose proof (perform_native a s e) as H2.
  destruct (perform a s) as [s1 e1].
  specialize (IH s1). destruct (run acts s1) as [s2 e2]. simpl in *.
  apply in_app_or in Hin as [Hin|Hin].
  - destruct H2 as [H2 _]; [exact Hin|by destruct e|]. congruence.
  - apply IH; [congruence|exact Hin|exact Hn].
Qed.

(** Witness of X1: the close command of server 7. *)
Lemma native_commands_name_own_id_witness :
  In (NativeClose 7)
    (snd (run [DoListen port_12345 None; Deliver (EvListening 7 wildcard_12345);
               DoClose None] (new_Server 7 None))) ∧
  native_id (NativeClose 7) = Some 7%Z ∧ 7%Z = 7%Z.
Proof.
  assert (Hin : In (NativeClose 7)
    (snd (run [DoListen port_12345 None; Deliver (EvListening 7 wildcard_12345);
               DoClose None] (new_Server 7 None)))).
  { vm_compute. right. right. left. reflexivity. }
  split; [exact Hin|]. split; [reflexivity|].
  exact (native_commands_name_own_id 7 None _ (NativeClose 7) 7 Hin eq_refl).
Defined.

(** X2.  Only [listen], [close] and the handler of the native [error]
    event send a command to the native module: [getConnections], [destroy],
    the [listening] and [connection] handlers and the close listener of an
    accepted socket send none. *)
Theorem native_commands_origin a s :
  existsb is_native (snd (perform a s)) = true →
  match a with
  | DoListen _ _ | DoClose _ | Deliver (EvError _ _) => True
  | _ => False
  end.
Proof.
  intros H. apply existsb_exists in H as (e & Hin & Hn).
  exact (proj2 (perform_native a s e Hin Hn)).
Qed.

(** Witness of X2: [close()] on the listening server sends one. *)
Lemma native_commands_origin_witness :
  existsb is_native (snd (perform (DoClose None) server_listening)) = true ∧ True.
Proof.
  assert (H : existsb is_native
                (snd (perform (DoClose None) server_listening)) = true)
    by (vm_compute; reflexivity).
  split; [exact H|].
  exact (native_commands_origin (DoClose None) server_listening H).
Defined.

(** X3.  [listen], [close], [getConnections], [on] and [once] answer at
    once and emit no public event: public events are only emitted when a
    native event is handled, when an accepted socket closes, or by
    [destroy]. *)
Theorem synchronous_methods_emit_nothing a s event :
  is_synchronous a = true → ¬ emits event (snd (perform a s)).
Proof.
  intros Ha. destruct a as [o cb|cb|cb| |ev cb|ev cb|evt|ref]; try discriminate.
  - apply listen_effects.
  - intros [x [H|[]]]. discriminate.
  - apply close_effects.
  - intros [x []].
  - intros [x []].
Qed.

(** Witness of X3: [close(callback)] on the listening server emits nothing,
    not even [close]. *)
Lemma synchronous_methods_emit_nothing_witness :
  ¬ emits "close" (snd (perform (DoClose (Some 5)) server_listening)).
Proof.
  apply (synchronous_methods_emit_nothing (DoClose (Some 5)) server_listening).
  reflexivity.
Defined.

(** ** The bound address *)

Lemma steady_same s s' :
  _events s' = _events s → _localAddress s' = _localAddress s →
  _localPort s' = _localPort s → _localFamily s' = _localFamily s →
  steady s → steady s'.
Proof.
  intros He Ha Hp Hf [Hd Har Hfi].
  constructor; unfold disconnect_registered, arrows_once, unbound, fully_bound in *;
    rewrite ?He, ?Ha, ?Hp, ?Hf; assumption.
Qed.

Lemma steady_append p s :
  (is_arrow (snd p) = true → is_once (snd p) = true) →
  steady s → steady (set_events (_events s ++ [p]) s).
Proof.
  intros Hp [Hd Har Hfi]. constructor; [| |exact Hfi].
  - unfold disconnect_registered. simpl. apply in_or_app. by left.
  - unfold arrows_once. simpl. apply Forall_app. split; [exact Har|].
    constructor; [exact Hp|constructor].
Qed.

Lemma emit_steady event args s : steady s → steady (fst (emit event args s)).
Proof.
  intros [Hd Har Hfi].
  destruct (emit_spec event args s) as ((_ & _ & He & _) & _ & Hl & _).
  simpl in He. constructor.
  - unfold disconnect_registered. rewrite He. apply filter_In.
    split; [exact Hd|]. simpl. by rewrite andb_false_r.
  - unfold arrows_once in *. rewrite He. rewrite List.Forall_forall in *.
    intros p Hp. apply filter_In in Hp. apply Har, Hp.
  - destruct (existsb is_disconnect (listeners event s)).
    + left. exact Hl.
    + destruct Hl as (Ha & Hp & Hf). unfold unbound, fully_bound in *.
      rewrite Ha, Hp, Hf. exact Hfi.
Qed.

Lemma close_steady callback s : steady s → steady (fst (close callback s)).
Proof.
  intros Hs. unfold close.
  destruct (negb (truthy (_localAddress s))); simpl; [exact Hs|].
  destruct callback as [cb|].
  - apply (steady_same (once "close" (UserFn cb) s)); try reflexivity.
    by apply steady_append.
  - by apply (steady_same s).
Qed.

Lemma handle_steady evt s : steady s → steady (fst (handle evt s)).
Proof.
  intros Hs. destruct evt as [id c|id e|id i]; simpl.
  - unfold onListening. destruct (negb (id =? _id s)%Z); [exact Hs|].
    apply emit_steady. destruct Hs as [Hd Har _].
    constructor; [exact Hd|exact Har|]. right. repeat split; simpl; eauto.
  - unfold onError. destruct (negb (id =? _id s)%Z); [exact Hs|].
    pose proof (close_steady None s Hs) as H1. destruct (close None s) as [s1 e1].
    pose proof (emit_steady "error" [VString e] s1 H1) as H2.
    destruct (emit "error" [VString e] s1) as [s2 e2]. exact H2.
  - unfold onConnection. destruct (negb (id =? _id s)%Z); [exact Hs|]. simpl.
    match goal with |- context [emit ?ev ?a ?s0] =>
      assert (H3 : steady s0) by (by apply (steady_same s));
      apply (emit_steady ev a) in H3; destruct (emit ev a s0) as [s4 e4] end.
    exact H3.
Qed.

Lemma perform_steady a s : steady s → steady (fst (perform a s)).
Proof.
  intros Hs. destruct a as [o cb|cb|cb| |ev cb|ev cb|evt|ref]; simpl.
  - destruct (listen [o] s 0 cb) as [[m|st s' eff]|] eqn:E; simpl; try exact Hs.
    apply listen_inv in E as (_ & o' & _ & _ & -> & _). by apply steady_append.
  - exact Hs.
  - by apply close_steady.
  - unfold destroy. pose proof (emit_steady "close" [] s Hs) as H1.
    destruct (emit "close" [] s) as [s1 e1]. simpl in *.
    apply (steady_same s1); try exact H1;
      destruct (_errorListener s1), (_connectionsListener _); reflexivity.
  - apply steady_append; [discriminate|exact Hs].
  - apply steady_append; [discriminate|exact Hs].
  - unfold deliver. destruct (subscribed _ s); [by apply handle_steady|exact Hs].
  - unfold socketCloses, onSocketClose. case_bool_decide; [|exact Hs].
    assert (H1 : steady (set_connections (_connections s ∖ {[ref]}) s))
      by (by apply (steady_same s)).
    match goal with |- context [if ?b then _ else _] => destruct b end;
      [by apply emit_steady|exact H1].
Qed.

Lemma new_Server_steady id connectionCallback :
  steady (new_Server id connectionCallback).
Proof.
  destruct connectionCallback; constructor;
    unfold disconnect_registered, arrows_once, unbound; simpl;
    auto 6; repeat constructor; discriminate.
Qed.

Lemma run_steady acts : ∀ s, steady s → steady (fst (run acts s)).
Proof.
  induction acts as [|a acts IH]; intros s Hs; simpl; [exact Hs|].
  pose proof (perform_steady a s Hs) as H1. destruct (perform a s) as [s1 e1].
  specialize (IH s1 H1). destruct (run acts s1) as [s2 e2]. exact IH.
Qed.

Lemma reachable_steady s : reachable s → steady s.
Proof. intros (id & cb & acts & <-). apply run_steady, new_Server_steady. Qed.

(** X4.  In every state of a server, the address, the port and the family
    are set together or not at all; so [address()] returns null exactly
    when the address is undefined or empty, and its second test, on the
    family and the port, never decides. *)
Theorem address_fields_together id connectionCallback acts :
  let s := fst (run acts (new_Server id connectionCallback)) in
  (unbound s ∨ fully_bound s) ∧
  (address s = None ↔ truthy (_localAddress s) = false).
Proof.
  intros s.
  assert (Hs : steady s) by apply run_steady, new_Server_steady.
  destruct Hs as [_ _ Hf]. split; [exact Hf|].
  unfold address.
  destruct Hf as [(Ha & _ & _)|([a Ha] & [p Hp] & [f Hf])].
  - rewrite Ha. simpl. tauto.
  - rewrite Ha, Hp, Hf. destruct (truthy (Some a)); simpl; [|tauto].
    split; discriminate.
Qed.

Lemma emit_close_unbound args s :
  disconnect_registered s → unbound (fst (emit "close" args s)).
Proof.
  intros Hd. destruct (emit_spec "close" args s) as (_ & _ & Hl & _).
  assert (He : existsb is_disconnect (listeners "close" s) = true).
  { apply existsb_exists. exists {| fn := SetDisconnected; is_once := false |}.
    split; [|reflexivity]. unfold listeners. apply in_map_iff.
    eexists. split; [|apply filter_In; split; [exact Hd|reflexivity]]. reflexivity. }
  rewrite He in Hl. exact Hl.
Qed.

Lemma close_emission_unbinds a s :
  disconnect_registered s → emits "close" (snd (perform a s)) →
  unbound (fst (perform a s)).
Proof.
  intros Hd He. destruct a as [o cb|cb|cb| |ev cb|ev cb|evt|ref].
  - destruct (listen_effects o cb s "close" He).
  - destruct He as [x [H|[]]]. discriminate.
  - destruct (close_effects cb s "close" He).
  - simpl. unfold destroy. pose proof (emit_close_unbound [] s Hd) as H.
    destruct (emit "close" [] s) as [s1 e1]. simpl in *.
    destruct (_errorListener s1), (_connectionsListener _); exact H.
  - destruct He as [x []].
  - destruct He as [x []].
  - simpl in He. unfold deliver in He. destruct (subscribed _ s).
    + apply handle_emits in He. destruct evt; discriminate.
    + destruct He as [x []].
  - simpl in *. unfold socketCloses, onSocketClose in *.
    case_bool_decide; [|destruct He as [x []]].
    match goal with |- context [if ?b then _ else _] => destruct b end;
      [|destruct He as [x []]].
    by apply emit_close_unbound.
Qed.

(** X5.  Whenever a step emits the public [close] event, the bound address
    is cleared by the end of that step and [address()] returns null. *)
Theorem close_event_clears_address a s :
  reachable s → emits "close" (snd (perform a s)) →
  unbound (fst (perform a s)) ∧ address (fst (perform a s)) = None.
Proof.
  intros Hr He. apply reachable_steady in Hr. destruct Hr as [Hd _ _].
  pose proof (close_emission_unbinds a s Hd He) as Hu.
  split; [exact Hu|]. unfold address. destruct Hu as (-> & _). reflexivity.
Qed.

(** Witness of X5: [destroy()] on the listening server 7. *)
Lemma close_event_clears_address_witness :
  unbound (fst (perform DoDestroy server_listening)) ∧
  address (fst (perform DoDestroy server_listening)) = None.
Proof.
  apply (close_event_clears_address DoDestroy server_listening).
  - exists 7%Z, None,
      [DoListen port_12345 None; Deliver (EvListening 7 wildcard_12345)].
    vm_compute. reflexivity.
  - exists []. vm_compute. left. reflexivity.
Defined.

(** ** [destroy] and the subscriptions of [_registerEvents] *)








Lemma destroy_unfold s :
  invariant s →
  destroy s =
    (remove_subscription (Some SubConnection)
       (remove_subscription (Some SubError) (fst (emit "close" [] s))),
     snd (emit "close" [] s)).
Proof.
  intros Hi. unfold destroy.
  pose proof (emit_invariant "close" [] s Hi) as Hi1.
  destruct (emit "close" [] s) as [s1 e1]. simpl fst in *. simpl snd.
  rewrite (inv_errorListener _ Hi1).
  assert (Hc : _connectionsListener (remove_subscription (Some SubError) s1)
               = Some SubConnection) by exact (inv_connectionsListener _ Hi1).
  by rewrite Hc.
Qed.






(** X8.  [destroy()] does not remove the subscription of the [listening]
    handler, whose handle [_registerEvents] overwrote: after [destroy()] a
    [listening] event with the server's id is still handled, binds the
    address again and emits the public [listening] event. *)
Theorem listening_handler_survives_destroy c s :
  reachable s →
  let s' := fst (deliver (EvListening (_id s) c) (fst (destroy s))) in
  subscribed SubListening (fst (destroy s)) = true ∧
  _localAddress s' = Some (localAddress c) ∧
  _localPort s' = Some (localPort c) ∧
  _localFamily s' = Some (localFamily c) ∧
  emits "listening" (snd (deliver (EvListening (_id s) c) (fst (destroy s)))).
Proof.
  intros Hr. pose proof (reachable_perform DoDestroy s Hr) as Hr1.
  apply reachable_invariant in Hr1. simpl in Hr1.
  pose proof (perform_id DoDestroy s) as Hid. simpl in Hid.
  unfold deliver. simpl. rewrite (inv_subscribed _ Hr1). rewrite <- Hid.
  destruct (onListening_matching c (fst (destroy s)) (inv_registry _ Hr1))
    as (Ha & Hp & Hf & _ & calls & Hc & _).
  repeat split; try assumption. rewrite Hc. exists []. left. reflexivity.
Qed.

(** Witness of X8: server 7, destroyed while listening. *)
Lemma listening_handler_survives_destroy_witness :
  let s' := fst (deliver (EvListening 7 wildcard_12345)
                   (fst (destroy server_listening))) in
  subscribed SubListening (fst (destroy server_listening)) = true ∧
  _localAddress s' = Some "0.0.0.0" ∧
  _localPort s' = Some 12345%Z ∧
  _localFamily s' = Some "IPv4" ∧
  emits "listening"
    (snd (deliver (EvListening 7 wildcard_12345) (fst (destroy server_listening)))).
Proof.
  apply (listening_handler_survives_destroy wildcard_12345 server_listening).
  exists 7%Z, None,
    [DoListen port_12345 None; Deliver (EvListening 7 wildcard_12345)].
  vm_compute. reflexivity.
Defined.

(** ** Callbacks passed to [close] and [listen] *)












(** X11.  The options [listen] sends to the native module keep the
    caller's port and [reuseAddress]; their host is never missing or
    empty: it is the caller's host when that is a non-empty string, and
    the wildcard address 0.0.0.0 otherwise. *)
Theorem listen_sends_normalised_host o callback s :
  _localAddress s = None →
  ∃ h,
    snd (perform (DoListen o callback) s)
    = [NativeListen (_id s)
         {| ListenOptions.port := ListenOptions.port o;
            ListenOptions.host := Some h;
            ListenOptions.reuseAddress := ListenOptions.reuseAddress o |}] ∧
    h ≠ "" ∧
    (∀ h0, ListenOptions.host o = Some h0 → h0 ≠ "" → h = h0) ∧
    (ListenOptions.host o = None ∨ ListenOptions.host o = Some "" → h = "0.0.0.0").
Proof.
  intros Hs. rewrite listen_unbound_accepts by exact Hs. simpl snd.
  unfold host_or_default, ListenOptions.with_host, truthy.
  destruct (ListenOptions.host o) as [h0|] eqn:Eh.
  - destruct (String.eqb h0 "") eqn:E; simpl.
    + apply String.eqb_eq in E. subst h0. exists "0.0.0.0".
      repeat split; try discriminate; auto. intros h1 [= <-] Hne. by destruct Hne.
    + apply String.eqb_neq in E. exists h0. repeat split; auto.
      * by intros h1 [= <-] _.
      * intros [H|[= H]]; [discriminate|]. by destruct E.
  - exists "0.0.0.0". repeat split; try discriminate; auto.
Qed.

(** Witness of X11: a caller's host is passed through. *)
Lemma listen_sends_normalised_host_witness :
  ∃ h,
    snd (perform (DoListen (ListenOptions.mk 80 (Some "127.0.0.1") (Some true)) None)
           (new_Server 7 None))
    = [NativeListen 7
         {| ListenOptions.port := 80; ListenOptions.host := Some h;
            ListenOptions.reuseAddress := Some true |}] ∧
    h ≠ "" ∧
    (∀ h0, Some "127.0.0.1" = Some h0 → h0 ≠ "" → h = h0) ∧
    (Some "127.0.0.1" = None ∨ Some "127.0.0.1" = Some "" → h = "0.0.0.0").
Proof.
  apply (listen_sends_normalised_host
           (ListenOptions.mk 80 (Some "127.0.0.1") (Some true)) None
           (new_Server 7 None)).
  reflexivity.
Defined.

(** ** The connection set *)

Lemma onSocketClose_connections ref s :
  _connections (fst (onSocketClose ref s)) = _connections s ∖ {[ ref ]}.
Proof.
  unfold onSocketClose.
  match goal with |- context [if ?b then _ else _] => destruct b end;
    [|reflexivity].
  match goal with |- context [emit ?ev ?a ?s0] =>
    destruct (emit_spec ev a s0) as ((_ & Hc & _) & _) end.
  exact Hc.
Qed.

(** X12.  Every socket in the connection set carries the close listener of
    the server: when it closes it leaves the set, the others stay, and the
    count [getConnections] reports goes down by one. *)
Theorem member_leaves_on_close ref s :
  reachable s → ref ∈ _connections s →
  let s' := fst (socketCloses ref s) in
  _connections s' = _connections s ∖ {[ ref ]} ∧
  (ref ∉ _connections s') ∧
  S (size (_connections s')) = size (_connections s).
Proof.
  intros Hr Hin. apply reachable_invariant in Hr.
  unfold socketCloses.
  rewrite bool_decide_eq_true_2 by (by apply (inv_watched _ Hr)).
  rewrite onSocketClose_connections.
  split; [reflexivity|]. split.
  - intros H. apply elem_of_difference in H as [_ H].
    apply H. by apply elem_of_singleton.
  - rewrite size_difference by (by apply singleton_subseteq_l).
    rewrite size_singleton.
    assert (0 < size (_connections s)); [|lia].
    apply Nat.neq_0_lt_0. intros H0. apply size_empty_iff in H0.
    apply (not_elem_of_empty (C := gset nat) ref). by rewrite <- H0.
Qed.

(** Witness of X12: the one socket of the accepting server. *)
Lemma member_leaves_on_close_witness :
  let s' := fst (socketCloses 0 server_accepting) in
  _connections s' = _connections server_accepting ∖ {[ 0 ]} ∧
  (0 ∉ _connections s') ∧
  S (size (_connections s')) = size (_connections server_accepting).
Proof.
  apply (member_leaves_on_close 0 server_accepting).
  - exists 7%Z, None,
      [DoListen port_12345 None; Deliver (EvListening 7 wildcard_12345);
       Deliver (EvConnection 7 peer)].
    vm_compute. reflexivity.
  - apply (bool_decide_eq_true_1 (0 ∈ _connections server_accepting)).
    vm_compute. reflexivity.
Defined.

(** X13.  The count [getConnections] reports never exceeds the number of
    sockets the server has built: the connection set only holds sockets
    made by [_buildSocket], each of them once. *)
Theorem connections_bounded_by_built id connectionCallback acts :
  let s := fst (run acts (new_Server id connectionCallback)) in
  (size (_connections s) ≤ allocated s)%nat ∧
  ∀ ref, ref ∈ _connections s → (ref < allocated s)%nat.
Proof.
  intros s.
  assert (Hi : invariant s) by apply run_invariant, new_Server_invariant.
  assert (Hall : ∀ ref, ref ∈ _connections s → ref < allocated s).
  { intros ref Hin. by apply (inv_fresh _ Hi), (inv_watched _ Hi). }
  split; [|exact Hall].
  rewrite <- (size_set_seq (C := gset nat) 0 (allocated s)).
  apply subseteq_size. intros ref Hin. apply elem_of_set_seq.
  specialize (Hall ref Hin). lia.
Qed.

Lemma run_listeners_calls_user l ls args cb : ∀ s,
  In l ls → fn l = UserFn cb → In (Call cb args) (snd (run_listeners ls args s)).
Proof.
  induction ls as [|x ls IH]; intros s Hin Hf; [destruct Hin|]. simpl.
  destruct (run_listener (fn x) args s) as [s1 e1] eqn:E1.
  specialize (IH s1). destruct (run_listeners ls args s1) as [s2 e2]. simpl in *.
  apply in_or_app. destruct Hin as [->|Hin]; [left|right; by apply IH].
  rewrite Hf in E1. simpl in E1. inversion E1. by left.
Qed.

Lemma emit_calls_permanent event cb args s :
  permanent event cb s → In (Call cb args) (snd (emit event args s)).
Proof.
  intros Hp. unfold emit.
  pose proof (run_listeners_calls_user {| fn := UserFn cb; is_once := false |}
                (listeners event s) args cb (drop_once event s)) as H.
  destruct (run_listeners (listeners event s) args (drop_once event s)) as [s1 e1].
  right. apply H; [|reflexivity].
  unfold listeners. apply in_map_iff. eexists. split; [|apply filter_In; split;
    [exact Hp|simpl; apply String.eqb_refl]]. reflexivity.
Qed.

Lemma emit_keeps_entry p event args s :
  is_once (snd p) = false → In p (_events s) →
  In p (_events (fst (emit event args s))).
Proof.
  intros Ho Hin. destruct (emit_spec event args s) as ((_ & _ & He & _) & _).
  rewrite He. simpl. apply filter_In. split; [exact Hin|].
  by rewrite Ho, andb_false_r.
Qed.

Lemma close_keeps_entry p callback s :
  In p (_events s) → In p (_events (fst (close callback s))).
Proof.
  intros Hin. unfold close. destruct (negb (truthy (_localAddress s))); [exact Hin|].
  destruct callback; simpl; [apply in_or_app; by left|exact Hin].
Qed.

(** Nothing the server does unregisters a listener registered with [on]. *)
Lemma perform_keeps_entry p a s :
  is_once (snd p) = false → In p (_events s) →
  In p (_events (fst (perform a s))).
Proof.
  intros Ho Hin. destruct a as [o cb|cb|cb| |ev cb|ev cb|evt|ref]; simpl.
  - destruct (listen [o] s 0 cb) as [[m|st s' eff]|] eqn:E; simpl; try exact Hin.
    apply listen_inv in E as (_ & o' & _ & _ & -> & _). simpl.
    apply in_or_app. by left.
  - exact Hin.
  - by apply close_keeps_entry.
  - unfold destroy. pose proof (emit_keeps_entry p "close" [] s Ho Hin) as H1.
    destruct (emit "close" [] s) as [s1 e1]. simpl in *.
    destruct (_errorListener s1), (_connectionsListener _); exact H1.
  - apply in_or_app. by left.
  - apply in_or_app. by left.
  - unfold deliver. destruct (subscribed _ s); [|exact Hin].
    destruct evt as [id c|id e|id i]; simpl.
    + unfold onListening. destruct (negb (id =? _id s)%Z); [exact Hin|].
      by apply emit_keeps_entry.
    + unfold onError. destruct (negb (id =? _id s)%Z); [exact Hin|].
      pose proof (close_keeps_entry p None s Hin) as H1.
      destruct (close None s) as [s1 e1].
      pose proof (emit_keeps_entry p "error" [VString e] s1 Ho H1) as H2.
      destruct (emit "error" [VString e] s1) as [s2 e2]. exact H2.
    + unfold onConnection. destruct (negb (id =? _id s)%Z); [exact Hin|]. simpl.
      match goal with |- context [emit ?ev ?a ?s0] =>
        pose proof (emit_keeps_entry p ev a s0 Ho Hin) as H3;
        destruct (emit ev a s0) as [s4 e4] end.
      exact H3.
  - unfold socketCloses, onSocketClose. case_bool_decide as Hw; [|exact Hin].
    match goal with |- context [if ?b then _ else _] => destruct b end;
      [by apply emit_keeps_entry|exact Hin].
Qed.

Lemma run_keeps_entry p acts : ∀ s,
  is_once (snd p) = false → In p (_events s) →
  In p (_events (fst (run acts s))).
Proof.
  induction acts as [|a acts IH]; intros s Ho Hin; simpl; [exact Hin|].
  pose proof (perform_keeps_entry p a s Ho Hin) as H1.
  destruct (perform a s) as [s1 e1]. specialize (IH s1 Ho H1).
  destruct (run acts s1) as [s2 e2]. exact IH.
Qed.

(** X14.  A server made by [createServer(connectionListener)] accepts each
    [connection] event with its id, as long as it was not destroyed: it
    builds a socket that was not in the set, adds it, emits the public
    [connection] event with it and calls [connectionListener] with that
    same socket; [listening] is not consulted. *)
Theorem createServer_listener_called id connectionListener acts info :
  let s := fst (run acts (createServer id connectionListener)) in
  let newSocket := new_Socket (allocated s) in
  subscribed SubConnection s = true →
  (allocated s ∉ _connections s) ∧
  _connections (fst (deliver (EvConnection id info) s))
    = {[ allocated s ]} ∪ _connections s ∧
  ∃ calls,
    snd (deliver (EvConnection id info) s)
    = ConsoleWarn info :: Emit "connection" [VSocket newSocket] :: calls ∧
    forallb is_call calls = true ∧
    In (Call connectionListener [VSocket newSocket]) calls.
Proof.
  intros s newSocket Hsub.
  assert (Hi : invariant s) by apply run_invariant, new_Server_invariant.
  assert (Hid : _id s = id) by apply run_id.
  assert (Hp : permanent "connection" connectionListener s).
  { apply (run_keeps_entry ("connection",
             {| fn := UserFn connectionListener; is_once := false |}));
      [reflexivity|]. simpl. auto. }
  unfold deliver. simpl subscription_of. rewrite Hsub. rewrite <- Hid.
  destruct (connection_event_accepts info s Hi)
    as (Hfresh & Hc & _ & _ & _ & calls & Heff & Hcalls).
  split; [exact Hfresh|]. split; [exact Hc|].
  exists calls. split; [exact Heff|]. split; [exact Hcalls|].
  simpl in Heff. unfold onConnection in Heff. rewrite Z.eqb_refl in Heff.
  simpl in Heff.
  match type of Heff with context [emit ?ev ?a ?s0] =>
    pose proof (emit_calls_permanent ev connectionListener a s0 Hp) as Hcall;
    destruct (emit ev a s0) as [s4 e4] end.
  simpl in *. injection Heff as -> . destruct Hcall as [H|H]; [discriminate|exact H].
Qed.

(** Witness of X14: [createServer(listener 1)] with id 7, listening. *)
Lemma createServer_listener_called_witness :
  let s := fst (run [DoListen port_12345 None; Deliver (EvListening 7 wildcard_12345)]
                  (createServer 7 1)) in
  let newSocket := new_Socket (allocated s) in
  (allocated s ∉ _connections s) ∧
  _connections (fst (deliver (EvConnection 7 peer) s))
    = {[ allocated s ]} ∪ _connections s ∧
  ∃ calls,
    snd (deliver (EvConnection 7 peer) s)
    = ConsoleWarn peer :: Emit "connection" [VSocket newSocket] :: calls ∧
    forallb is_call calls = true ∧
    In (Call 1 [VSocket newSocket]) calls.
Proof.
  apply (createServer_listener_called 7 1
           [DoListen port_12345 None; Deliver (EvListening 7 wildcard_12345)] peer).
  vm_compute. reflexivity.
Defined.

(** ** What changes [listening] and the bound address *)

Lemma arrow_pending s :
  arrows_once s → existsb is_arrow (listeners "listening" s) = true →
  listen_pending s.
Proof.
  intros Har H. apply existsb_exists in H as (l & Hl & Hal).
  unfold listeners in Hl. apply in_map_iff in Hl as ([ev l'] & Heq & Hin).
  simpl in Heq. subst l'. apply filter_In in Hin as [Hin Hev].
  simpl in Hev. apply String.eqb_eq in Hev. subst ev.
  unfold arrows_once in Har. rewrite List.Forall_forall in Har.
  specialize (Har _ Hin Hal). simpl in Har.
  destruct l as [f o]. simpl in *. subst o.
  unfold is_arrow in Hal. simpl in Hal. destruct f as [cb| |cb]; try discriminate.
  by exists cb.
Qed.

Lemma close_local callback s :
  _localAddress (fst (close callback s)) = _localAddress s.
Proof.
  unfold close. destruct (negb (truthy (_localAddress s))); [reflexivity|].
  destruct callback; reflexivity.
Qed.

Lemma close_listening callback s :
  listening (fst (close callback s)) = true → listening s = true.
Proof.
  unfold close. destruct (negb (truthy (_localAddress s))); [auto|discriminate].
Qed.

(** The handlers of [error] and [connection], and of events for another
    endpoint, leave [listening] and the address alone. *)
Lemma handle_other_keeps evt s :
  invariant s → (∀ c, evt ≠ EvListening (_id s) c) →
  (listening (fst (handle evt s)) = true → listening s = true) ∧
  _localAddress (fst (handle evt s)) = _localAddress s.
Proof.
  intros Hi Hne. pose proof (inv_registry _ Hi) as Hr.
  destruct evt as [id c|id e|id i]; simpl.
  - unfold onListening. destruct (id =? _id s)%Z eqn:E; simpl; [|auto].
    apply Z.eqb_eq in E. subst id. by destruct (Hne c).
  - unfold onError. destruct (negb (id =? _id s)%Z); [auto|].
    pose proof (close_invariant None s Hi) as Hi1.
    pose proof (close_listening None s) as Hl1.
    pose proof (close_local None s) as Ha1.
    destruct (close None s) as [s1 e1]. simpl in *.
    pose proof (emit_keeps_listening "error" [VString e] s1 (inv_registry _ Hi1)) as Hl.
    destruct (emit_keeps_local "error" [VString e] s1 (inv_registry _ Hi1))
      as (Ha & _); [discriminate|].
    destruct (emit "error" [VString e] s1) as [s2 e2]. simpl in *.
    rewrite Hl by discriminate. split; [exact Hl1|congruence].
  - unfold onConnection. destruct (negb (id =? _id s)%Z); [auto|]. simpl.
    match goal with |- context [emit ?ev ?a ?s0] =>
      pose proof (emit_keeps_listening ev a s0 Hr) as Hl;
      destruct (emit_keeps_local ev a s0 Hr) as (Ha & _); [discriminate|];
      destruct (emit ev a s0) as [s4 e4] end.
    simpl in *. rewrite Hl by discriminate. auto.
Qed.

Lemma destroy_listening s :
  invariant s → listening (fst (destroy s)) = listening s.
Proof.
  intros Hi. rewrite (destroy_unfold s Hi). cbv beta iota delta [fst].
  exact (emit_keeps_listening "close" [] s (inv_registry _ Hi) ltac:(discriminate)).
Qed.

Lemma socketCloses_listening ref s :
  registry_ok s → listening (fst (socketCloses ref s)) = listening s.
Proof.
  intros Hr. unfold socketCloses, onSocketClose. case_bool_decide as Hw; [|reflexivity].
  match goal with |- context [if ?b then _ else _] => destruct b end;
    [|reflexivity].
  by rewrite emit_keeps_listening by (exact Hr || discriminate).
Qed.

(** X15.  A server that is not listening starts to listen in one way only:
    by handling a [listening] event with its own id while a [listen] call
    is waiting.  No method sets the flag, and without a waiting call the
    event does not set it either. *)
Theorem listening_set_only_by_event a s :
  reachable s → listening s = false → listening (fst (perform a s)) = true →
  ∃ c, a = Deliver (EvListening (_id s) c) ∧ listen_pending s.
Proof.
  intros Hreach Hl0 Hl1. pose proof (reachable_invariant s Hreach) as Hi.
  pose proof (reachable_steady s Hreach) as [_ Har _].
  pose proof (inv_registry _ Hi) as Hr.
  destruct a as [o cb|cb|cb| |ev cb|ev cb|evt|ref]; simpl in Hl1;
    try congruence.
  - destruct (listen [o] s 0 cb) as [[m|st s' eff]|] eqn:E; simpl in Hl1;
      try congruence.
    apply listen_inv in E as (_ & o' & _ & _ & -> & _). simpl in Hl1. congruence.
  - apply close_listening in Hl1. congruence.
  - rewrite destroy_listening in Hl1 by exact Hi. congruence.
  - unfold deliver in Hl1.
    destruct (subscribed _ s); [|simpl in Hl1; congruence].
    destruct evt as [id c|id e|id i].
    + destruct (Z.eq_dec id (_id s)) as [->|Hne].
      * exists c. split; [reflexivity|]. apply arrow_pending; [exact Har|].
        destruct (onListening_matching c s Hr) as (_ & _ & _ & Hl & _).
        simpl in Hl1. rewrite Hl1, Hl0, orb_false_r in Hl. by symmetry.
      * destruct (handle_other_keeps (EvListening id c) s Hi) as [H _];
          [intros c' [= ? _]; contradiction|]. apply H in Hl1. congruence.
    + destruct (handle_other_keeps (EvError id e) s Hi) as [H _];
        [discriminate|]. apply H in Hl1. congruence.
    + destruct (handle_other_keeps (EvConnection id i) s Hi) as [H _];
        [discriminate|]. apply H in Hl1. congruence.
  - rewrite socketCloses_listening in Hl1 by exact Hr. congruence.
Qed.

(** Witness of X15: the pending server 7 receives its [listening] event. *)
Lemma listening_set_only_by_event_witness :
  ∃ c, Deliver (EvListening 7 wildcard_12345)
       = Deliver (EvListening (_id server_pending) c) ∧
       listen_pending server_pending.
Proof.
  apply (listening_set_only_by_event (Deliver (EvListening 7 wildcard_12345))
           server_pending).
  - exists 7%Z, None, [DoListen port_12345 None]. vm_compute. reflexivity.
  - vm_compute. reflexivity.
  - vm_compute. reflexivity.
Defined.

(** X16.  The bound address changes in two ways only: a [listening] event
    with the server's id sets it, and a step that emits the public [close]
    event clears it.  In particular [close()] itself leaves it in place. *)
Theorem address_changes_only_by_events a s :
  reachable s → _localAddress (fst (perform a s)) ≠ _localAddress s →
  (∃ c, a = Deliver (EvListening (_id s) c)) ∨ emits "close" (snd (perform a s)).
Proof.
  intros Hreach Hne. pose proof (reachable_invariant s Hreach) as Hi.
  pose proof (inv_registry _ Hi) as Hr.
  destruct a as [o cb|cb|cb| |ev cb|ev cb|evt|ref]; simpl in Hne;
    try (by destruct Hne).
  - destruct (listen [o] s 0 cb) as [[m|st s' eff]|] eqn:E; simpl in Hne;
      try (by destruct Hne).
    apply listen_inv in E as (_ & o' & _ & _ & -> & _). by destruct Hne.
  - by rewrite close_local in Hne.
  - right. simpl. rewrite (destroy_unfold s Hi). by apply emit_emits.
  - unfold deliver in Hne. destruct (subscribed _ s) eqn:Es; [|by destruct Hne].
    destruct evt as [id c|id e|id i].
    + destruct (Z.eq_dec id (_id s)) as [->|Hid]; [left; by exists c|].
      destruct (handle_other_keeps (EvListening id c) s Hi) as [_ H];
        [intros c' [= ? _]; contradiction|]. by destruct Hne.
    + destruct (handle_other_keeps (EvError id e) s Hi) as [_ H];
        [discriminate|]. by destruct Hne.
    + destruct (handle_other_keeps (EvConnection id i) s Hi) as [_ H];
        [discriminate|]. by destruct Hne.
  - right. simpl. unfold socketCloses, onSocketClose in *.
    case_bool_decide as Hw; [|by destruct Hne].
    match goal with |- context [if ?b then _ else _] => destruct b end;
      [by apply emit_emits|by destruct Hne].
Qed.

(** Witness of X16: the last socket of the closed server 7 closes. *)
Lemma address_changes_only_by_events_witness :
  let s := fst (run [DoClose None] server_accepting) in
  (∃ c, SocketCloses 0 = Deliver (EvListening (_id s) c)) ∨
  emits "close" (snd (perform (SocketCloses 0) s)).
Proof.
  intros s. apply (address_changes_only_by_events (SocketCloses 0) s).
  - exists 7%Z, None,
      [DoListen port_12345 None; Deliver (EvListening 7 wildcard_12345);
       Deliver (EvConnection 7 peer); DoClose None].
    vm_compute. reflexivity.
  - vm_compute. discriminate.
Defined.

(** X17.  After [close()] a server with a bound address still refuses
    [listen]: the call throws [ERR_SERVER_ALREADY_LISTEN] and sends
    nothing, because [close()] leaves the address bound. *)
Theorem listen_after_close_throws o c callback s :
  _localAddress s ≠ None →
  perform (DoListen o c) (fst (close callback s))
  = (fst (close callback s), [Throw ERR_SERVER_ALREADY_LISTEN]).
Proof.
  intros H. simpl. rewrite listen_bound; [reflexivity|]. by rewrite close_local.
Qed.

(** Witness of X17: the listening server 7. *)
Lemma listen_after_close_throws_witness :
  perform (DoListen port_12345 None) (fst (close None server_listening))
  = (fst (close None server_listening), [Throw ERR_SERVER_ALREADY_LISTEN]).
Proof.
  apply (listen_after_close_throws port_12345 None None server_listening).
  vm_compute. discriminate.
Defined.

(** X18.  Once a step has emitted the public [close] event, [listen] is
    accepted again: it returns, registers its arrow function and sends the
    native listen command for the same id. *)
Theorem listen_after_close_event a o c s :
  reachable s → emits "close" (snd (perform a s)) →
  perform (DoListen o c) (fst (perform a s))
  = (once "listening" (ListenArrow c) (fst (perform a s)),
     [NativeListen (_id s) (host_or_default o)]).
Proof.
  intros Hr He. apply reachable_steady in Hr. destruct Hr as [Hd _ _].
  destruct (close_emission_unbinds a s Hd He) as (Ha & _).
  rewrite listen_unbound_accepts by exact Ha. by rewrite perform_id.
Qed.

(** Witness of X18: server 7 closed, its last socket closes, then
    [listen({port: 12345})] again. *)
Lemma listen_after_close_event_witness :
  let s := fst (run [DoClose None] server_accepting) in
  perform (DoListen port_12345 None) (fst (perform (SocketCloses 0) s))
  = (once "listening" (ListenArrow None) (fst (perform (SocketCloses 0) s)),
     [NativeListen (_id s) (host_or_default port_12345)]).
Proof.
  intros s. apply (listen_after_close_event (SocketCloses 0) port_12345 None s).
  - exists 7%Z, None,
      [DoListen port_12345 None; Deliver (EvListening 7 wildcard_12345);
       Deliver (EvConnection 7 peer); DoClose None].
    vm_compute. reflexivity.
  - exists []. vm_compute. left. reflexivity.
Defined.

Lemma emit_keeps_pending event args s :
  event ≠ "listening" → listen_pending s →
  listen_pending (fst (emit event args s)).
Proof.
  intros Hne [cb Hin]. exists cb.
  destruct (emit_spec event args s) as ((_ & _ & He & _) & _).
  assert (E : String.eqb "listening" event = false)
    by (apply String.eqb_neq; congruence).
  rewrite He. unfold drop_once. cbn [_events set_events].
  apply filter_In. split; [exact Hin|].
  change (negb (String.eqb "listening" event && true) = true).
  by rewrite E.
Qed.

(** X19.  An [error] event that reaches a server before any address is
    bound, as when the native listen fails, closes nothing: the handler
    only emits the public [error] event.  A [listen] call that was waiting
    stays registered, and a new [listen] is accepted and sends the native
    listen command. *)
Theorem listen_after_error e o c s :
  reachable s → _localAddress s = None →
  let s1 := fst (handle (EvError (_id s) e) s) in
  (∃ calls, snd (handle (EvError (_id s) e) s) = Emit "error" [VString e] :: calls ∧
            forallb is_call calls = true) ∧
  (listen_pending s → listen_pending s1) ∧
  snd (perform (DoListen o c) s1) = [NativeListen (_id s) (host_or_default o)].
Proof.
  intros Hr Ha. apply reachable_invariant in Hr.
  assert (Hs1 : _localAddress (fst (handle (EvError (_id s) e) s)) = None).
  { destruct (handle_other_keeps (EvError (_id s) e) s Hr) as [_ H];
      [discriminate|congruence]. }
  pose proof (handle_id (EvError (_id s) e) s) as Hid.
  split; [|split].
  - simpl. unfold onError, close. rewrite Z.eqb_refl, Ha. simpl.
    destruct (emit_spec "error" [VString e] s) as (_ & _ & _ & Hc).
    destruct (emit "error" [VString e] s) as [s2 e2]. exact Hc.
  - intros Hp. simpl. unfold onError, close. rewrite Z.eqb_refl, Ha. simpl.
    pose proof (emit_keeps_pending "error" [VString e] s ltac:(discriminate) Hp) as H.
    destruct (emit "error" [VString e] s) as [s2 e2]. exact H.
  - rewrite listen_unbound_accepts by exact Hs1.
    cbv beta iota delta [snd]. by rewrite Hid.
Qed.

(** Witness of X19: the pending server 7 is told that the address is in
    use. *)
Lemma listen_after_error_witness :
  let s1 := fst (handle (EvError 7 "EADDRINUSE") server_pending) in
  (∃ calls, snd (handle (EvError 7 "EADDRINUSE") server_pending)
            = Emit "error" [VString "EADDRINUSE"] :: calls ∧
            forallb is_call calls = true) ∧
  (listen_pending server_pending → listen_pending s1) ∧
  snd (perform (DoListen port_12345 None) s1)
  = [NativeListen 7 (host_or_default port_12345)].
Proof.
  apply (listen_after_error "EADDRINUSE" port_12345 None server_pending).
  - exists 7%Z, None, [DoListen port_12345 None]. vm_compute. reflexivity.
  - vm_compute. reflexivity.
Defined.
